(** * The impact-decomposition analysis engine (analysisEngine.js)

    A shallow embedding of the [AnalysisEngine] class: the weighted
    aggregator, the yield/distribution impact decomposition, the factor
    selector, the two tree builders (user-priority and auto-max-split), the
    tree analytics and the two [perform...V2] entry points, followed by the
    properties the specification states about them.

    Modelling conventions.
    - A JavaScript number is an exact rational ([Qc], canonical fractions, so
      that [===] on numbers is Leibniz equality).  Rounding of IEEE doubles,
      [NaN], infinities and signed zeros are outside the model.
    - A record (row) is an association list from column name to value, its
      entries in the order in which JavaScript enumerates the object's own
      properties: the integer-like names first, in ascending numeric order,
      then the other names in insertion order.  That is the order of
      [Object.keys], and for column names that are not integer-like it is
      the insertion order.  [row[key]] on an absent key is [undefined].
    - A string is the sequence of the bytes of its UTF-8 encoding, and the
      strings in scope are those of the Basic Multilingual Plane without
      surrogates: on them the byte-wise order [String.ltb] is the UTF-16
      code-unit order of the default comparator of [Array.prototype.sort].
    - The numeric columns [total_loan_amount] and [roi] are in scope when
      they hold a number, [undefined], [null] or the empty string
      ([numeric_row] below).  A non-empty string there is kept by [|| 0],
      and the engine then concatenates or computes [NaN], and throws a
      [TypeError] from a [toFixed] call of a log line of
      [calculateWeightedROI]; the embedding does not follow the engine
      there, and the properties that depend on it carry the premise.
    - Filters and the feature-importance object are used as maps only and
      are [gmap]s.
    - [console.log]/[console.table] calls, and the per-segment grouping that
      [calculateWeightedROI] builds solely to print it, are effects on the
      console and are left out; on rows in scope none of them throws. *)

From Stdlib Require Import QArith Qcanon String Ascii DecimalString.
From stdpp Require Import base numbers option list strings gmap.

Local Open Scope string_scope.
Local Open Scope Qc_scope.

(** ** Values and rows *)

(** The scalar values a cell can hold. *)
Inductive jsval :=
  | VUndef
  | VNull
  | VNum (q : Qc)
  | VStr (s : string).

#[global] Instance jsval_eq_dec : EqDecision jsval.
Proof. solve_decision. Defined.

Definition row := list (string * jsval).

(** [r[key]] *)
Fixpoint get (r : row) (key : string) : jsval :=
  match r with
  | [] => VUndef
  | (k, v) :: r' => if decide (k = key) then v else get r' key
  end.

(** [Object.keys(r)]: the names in the object's enumeration order, which is
    the order of the list. *)
Definition keys (r : row) : list string := map fst r.

(** [v !== null && v !== undefined] *)
Definition defined (v : jsval) : Prop := v ≠ VNull ∧ v ≠ VUndef.

#[global] Instance defined_dec v : Decision (defined v).
Proof. unfold defined. apply _. Defined.

(** [v || 0] in a numeric column.  [undefined], [null], [0] and the empty
    string are falsy and give [0]; a number gives itself.  A non-empty
    string is truthy, so JavaScript keeps the string itself (the data
    processor's [normalizeValue] lets a text such as ['N/A'] through): that
    is not a number, the value [0] given here for it is not what the engine
    computes, and such cells are out of scope ([numeric_cell] below). *)
Definition num_or_zero (v : jsval) : Qc :=
  match v with
  | VNum q => q
  | _ => 0
  end.

Definition amount_of (r : row) : Qc := num_or_zero (get r "total_loan_amount").
Definition roi_of (r : row) : Qc := num_or_zero (get r "roi").

(** The JavaScript runtime's [Number.prototype.toString], which the default
    comparator of [Array.prototype.sort] applies to numeric cells.  It is not
    code of the engine and is taken as a parameter. *)
Class JsRuntime := numberToString : Qc → string.

(** ** Filtering and distinct values *)

(** [Object.entries(filter).every(([key, value]) => row[key] === value)] *)
Definition matches (flt : gmap string jsval) (r : row) : Prop :=
  map_Forall (λ key value, get r key = value) flt.

#[global] Instance matches_dec flt r : Decision (matches flt r).
Proof. unfold matches. apply _. Defined.

Definition filterData (data : list row) (flt : gmap string jsval) : list row :=
  filter (matches flt) data.

(** [[...new Set(l)]]: the elements of [l] without repetition, each at the
    position of its first occurrence. *)
Fixpoint set_spread (l : list jsval) : list jsval :=
  match l with
  | [] => []
  | x :: l' => x :: filter (λ y, y ≠ x) (set_spread l')
  end.

(** [String(v)] as the default sort comparator sees it. *)
Definition toString `{JsRuntime} (v : jsval) : string :=
  match v with
  | VUndef => "undefined"
  | VNull => "null"
  | VNum q => numberToString q
  | VStr s => s
  end.

(** One step of a stable insertion sort under the default comparator: [x]
    goes before the first element whose string is not smaller than its own. *)
Fixpoint sort_insert `{JsRuntime} (x : jsval) (l : list jsval) : list jsval :=
  match l with
  | [] => [x]
  | y :: l' =>
      if String.ltb (toString y) (toString x)
      then y :: sort_insert x l'
      else x :: y :: l'
  end.

(** [l.sort()] with the default comparator: stable, the elements compared
    as strings by UTF-16 code unit, which [String.ltb] is on the strings in
    scope. *)
Definition default_sort `{JsRuntime} (l : list jsval) : list jsval :=
  foldr sort_insert [] l.

Definition getDistinctValuesForFactor `{JsRuntime}
    (data : list row) (factor : string) : list jsval :=
  let values := map (λ r, get r factor) data in
  let filteredValues := filter defined values in
  let uniqueValues := default_sort (set_spread filteredValues) in
  uniqueValues.

(** ** Weighted aggregator *)

(** [data.reduce((sum, row) => sum + f(row), 0)] *)
Definition reduce_sum {A} (f : A → Qc) (data : list A) : Qc :=
  fold_left (λ sum x, sum + f x) data 0.

(** The value [calculateWeightedROI] returns.  Between the guard and the
    two sums the function groups the rows by segment and prints the groups,
    three sample rows and the first ten terms; these lines call [toFixed] on
    the segment's total weight, on each of the first ten weights and rates
    and on the two sums.  On a numeric row each receiver is a number and the
    lines only print; on a non-empty string weight or rate the receiver is a
    string and the call throws a [TypeError], which is out of scope here. *)
Definition calculateWeightedROI (data : list row) : Qc :=
  if decide (length data = 0%nat) then 0
  else
    let totalWeightedROI := reduce_sum (λ r, amount_of r * roi_of r) data in
    let totalAmount := reduce_sum amount_of data in
    let finalROI :=
      if decide (0 < totalAmount) then totalWeightedROI / totalAmount else 0 in
    finalROI.

Definition getTotalAmount (data : list row) : Qc :=
  reduce_sum amount_of data.

Definition calculateTotalROIChange (previousData currentData : list row) : Qc :=
  let prevROI := calculateWeightedROI previousData in
  let currentROI := calculateWeightedROI currentData in
  currentROI - prevROI.

(** ** Impact decomposition *)

(** The object [calculateImpactDecomposition] returns.  Its fields live in a
    module of their own because tree nodes carry metrics of the same names. *)
Module Impact.
Record t := {
yieldImpact : Qc;
distributionImpact : Qc;
totalImpact : Qc;
yieldImpactBps : Qc;
distributionImpactBps : Qc;
totalImpactBps : Qc;
prevDistWeight : Qc;
currDistWeight : Qc
}.
End Impact.

(** [x * 10000] *)
Definition bps (x : Qc) : Qc := x * Qc_of_Z 10000.

Definition calculateImpactDecomposition
    (prevData currData totalPrevData totalCurrData : list row) : Impact.t :=
  let prevSegmentROI := calculateWeightedROI prevData in
  let currSegmentROI := calculateWeightedROI currData in
  let prevTotalAmount := getTotalAmount totalPrevData in
  let currTotalAmount := getTotalAmount totalCurrData in
  let prevSegmentAmount := getTotalAmount prevData in
  let currSegmentAmount := getTotalAmount currData in
  let prevDistWeight :=
    if decide (0 < prevTotalAmount) then prevSegmentAmount / prevTotalAmount else 0 in
  let currDistWeight :=
    if decide (0 < currTotalAmount) then currSegmentAmount / currTotalAmount else 0 in
  let yieldImpact := (currSegmentROI - prevSegmentROI) * prevDistWeight in
  let distributionImpact := prevSegmentROI * (currDistWeight - prevDistWeight) in
  let totalImpact := yieldImpact + distributionImpact in
  {| Impact.yieldImpact := yieldImpact;
     Impact.distributionImpact := distributionImpact;
     Impact.totalImpact := totalImpact;
     Impact.yieldImpactBps := bps yieldImpact;
     Impact.distributionImpactBps := bps distributionImpact;
     Impact.totalImpactBps := bps totalImpact;
     Impact.prevDistWeight := prevDistWeight;
     Impact.currDistWeight := currDistWeight |}.

(** ** Factor selector *)

Definition Qc_of_nat (n : nat) : Qc := Qc_of_Z (Z.of_nat n).

Definition calculateTotalImpactVariance `{JsRuntime}
    (previousData currentData : list row) (factor : string) : Qc :=
  let distinctValues :=
    getDistinctValuesForFactor (previousData ++ currentData) factor in
  let impacts :=
    omap (λ value,
      let prevSubset := filter (λ r, get r factor = value) previousData in
      let currSubset := filter (λ r, get r factor = value) currentData in
      if decide (0 < length prevSubset ∨ 0 < length currSubset)%nat then
        let impactDecomp :=
          calculateImpactDecomposition prevSubset currSubset previousData currentData in
        Some (Impact.totalImpact impactDecomp)
      else None) distinctValues in
  if decide (length impacts = 0%nat) then 0
  else
    let mean := reduce_sum id impacts / Qc_of_nat (length impacts) in
    let variance :=
      reduce_sum (λ impact, let diff := impact - mean in diff * diff) impacts
      / Qc_of_nat (length impacts) in
    variance.

Definition excludeColumns : list string := ["total_loan_amount"; "roi"; "v_score"].

(** The factors detected from the data when the caller passes none: the keys
    of the first row that are not excluded and are defined in some row. *)
Definition detectFactors (combinedData : list row) : option (list string) :=
  match combinedData with
  | [] => None
  | first :: _ =>
      Some (filter
              (λ factor,
                 (factor ∉ excludeColumns) ∧
                 (Exists (λ r, get r factor ≠ VUndef ∧ get r factor ≠ VNull)
                    combinedData))
              (keys first))
  end.

(** The result object [{ factor, variance }]. *)
Record Split := { split_factor : string; split_variance : Qc }.

Definition findBestSplitByTotalImpact `{JsRuntime}
    (previousData currentData : list row)
    (availableFactors : option (list string)) : option Split :=
  let detected :=
    match availableFactors with
    | Some factors => Some factors
    | None => detectFactors (previousData ++ currentData)
    end in
  match detected with
  | None => None
  | Some availableFactors =>
      fst (fold_left
        (λ st factor,
           let '(bestSplit, bestVariance) := st in
           let variance := calculateTotalImpactVariance previousData currentData factor in
           if decide (bestVariance < variance)
           then (Some {| split_factor := factor; split_variance := variance |}, variance)
           else (bestSplit, bestVariance))
        availableFactors (None, 0))
  end.

(** [Math.max(a, b)] *)
Definition Qc_max (a b : Qc) : Qc := if decide (a < b) then b else a.

Definition calculateTotalImpactFeatureImportance `{JsRuntime}
    (previousData currentData : list row)
    (availableFactors : option (list string)) : gmap string Qc :=
  let detected :=
    match availableFactors with
    | Some factors => Some factors
    | None => detectFactors (previousData ++ currentData)
    end in
  match detected with
  | None => ∅
  | Some availableFactors =>
      let '(importance, totalImportance) :=
        fold_left
          (λ st factor,
             let '(importance, totalImportance) := st in
             let variance := calculateTotalImpactVariance previousData currentData factor in
             let importance := <[factor := Qc_max 0 variance]> importance in
             (importance, totalImportance + default 0 (importance !! factor)))
          availableFactors (∅, 0) in
      if decide (0 < totalImportance) then
        (λ x, x / totalImportance) <$> importance
      else
        let equalWeight := 1 / Qc_of_nat (length availableFactors) in
        fold_left (λ importance factor, <[factor := equalWeight]> importance)
          availableFactors importance
  end.

(** ** Tree nodes *)

Record Metrics := {
  previousROI : Qc;
  currentROI : Qc;
  roiChange : Qc;
  roiChangeBps : Qc;
  yieldImpact : Qc;
  distributionImpact : Qc;
  totalImpact : Qc;
  yieldImpactBps : Qc;
  distributionImpactBps : Qc;
  totalImpactBps : Qc;
  percentOnParent : option Qc;   (* [null] at the root *)
  percentOnRoot : Qc;
  previousAmount : Qc;
  currentAmount : Qc;
  previousCount : nat;
  currentCount : nat
}.

(** A tree node; [children] is [None] where the source stores [null]. *)
Inductive node := Node {
  factor : string;
  value : jsval;
  nfilter : gmap string jsval;
  metrics : Metrics;
  children : option (list node)
}.

(** [Math.abs] *)
Definition Qc_abs (x : Qc) : Qc := if decide (x < 0) then - x else x.

(** One step of the stable sort of siblings: the comparator
    [(a, b) => Math.abs(b.metrics.totalImpactBps) - Math.abs(a.metrics.totalImpactBps)]
    puts [c] before the first sibling whose magnitude does not exceed its own. *)
Fixpoint insert_child (c : node) (l : list node) : list node :=
  match l with
  | [] => [c]
  | d :: l' =>
      if decide (Qc_abs (totalImpactBps (metrics c)) < Qc_abs (totalImpactBps (metrics d)))
      then d :: insert_child c l'
      else c :: d :: l'
  end.

Definition sort_children (l : list node) : list node := foldr insert_child [] l.

(** [l.length > 0 ? l : null] *)
Definition nonempty_or_null {A} (l : list A) : option (list A) :=
  match l with
  | [] => None
  | _ => Some l
  end.

(** The body of [distinctValues.forEach(value => ...)], which the two level
    builders share word for word: the child node for [value], or nothing when
    no record of either period carries it.  [recur] is the recursive call that
    builds the child's own children from its filter and total impact. *)
Definition build_child
    (previousData currentData filteredPrevious filteredCurrent : list row)
    (parentFilter : gmap string jsval) (currentFactor : string)
    (rootImpact parentTotalImpact : Qc)
    (recur : gmap string jsval → Qc → option (list node))
    (value : jsval) : option node :=
  let childFilter := <[currentFactor := value]> parentFilter in
  let childPrevious := filterData filteredPrevious {[currentFactor := value]} in
  let childCurrent := filterData filteredCurrent {[currentFactor := value]} in
  if decide (0 < length childPrevious ∨ 0 < length childCurrent)%nat then
    let impacts :=
      calculateImpactDecomposition childPrevious childCurrent previousData currentData in
    let prevROI := calculateWeightedROI childPrevious in
    let currentROI := calculateWeightedROI childCurrent in
    let roiChange := currentROI - prevROI in
    let roiChangeBps := bps roiChange in
    Some {|
      factor := currentFactor;
      value := value;
      nfilter := childFilter;
      metrics := {|
        previousROI := prevROI;
        currentROI := currentROI;
        roiChange := roiChange;
        roiChangeBps := roiChangeBps;
        yieldImpact := Impact.yieldImpact impacts;
        distributionImpact := Impact.distributionImpact impacts;
        totalImpact := Impact.totalImpact impacts;
        yieldImpactBps := Impact.yieldImpactBps impacts;
        distributionImpactBps := Impact.distributionImpactBps impacts;
        totalImpactBps := Impact.totalImpactBps impacts;
        percentOnParent :=
          Some (if decide (parentTotalImpact ≠ 0)
                then Impact.totalImpact impacts / parentTotalImpact * Qc_of_Z 100
                else 0);
        percentOnRoot :=
          if decide (rootImpact ≠ 0)
          then Impact.totalImpact impacts / rootImpact * Qc_of_Z 100
          else 0;
        previousAmount := getTotalAmount childPrevious;
        currentAmount := getTotalAmount childCurrent;
        previousCount := length childPrevious;
        currentCount := length childCurrent
      |};
      children := recur childFilter (Impact.totalImpact impacts)
    |}
  else None.

(** The loop over the distinct values, the sort of the children and the
    final [children.length > 0 ? children : null]. *)
Definition build_children `{JsRuntime}
    (previousData currentData filteredPrevious filteredCurrent : list row)
    (parentFilter : gmap string jsval) (currentFactor : string)
    (rootImpact parentTotalImpact : Qc)
    (recur : gmap string jsval → Qc → option (list node)) : option (list node) :=
  let distinctValues :=
    getDistinctValuesForFactor (filteredPrevious ++ filteredCurrent) currentFactor in
  let children :=
    omap (build_child previousData currentData filteredPrevious filteredCurrent
            parentFilter currentFactor rootImpact parentTotalImpact recur)
         distinctValues in
  nonempty_or_null (sort_children children).

(** [parentTotalImpact === null ? calculateImpactDecomposition(...).totalImpact
    : parentTotalImpact] *)
Definition parent_impact
    (previousData currentData filteredPrevious filteredCurrent : list row)
    (parentTotalImpact : option Qc) : Qc :=
  match parentTotalImpact with
  | Some impact => impact
  | None =>
      let parentImpacts :=
        calculateImpactDecomposition filteredPrevious filteredCurrent
          previousData currentData in
      Impact.totalImpact parentImpacts
  end.

(** ** User-priority tree

    [fuel] bounds the recursion for the termination checker; the recursion
    itself stops when [depth] reaches [factorOrder.length], and
    [length factorOrder - depth] units of fuel are never exhausted first
    (lemma [priority_fuel_enough]).  The unused [targetVariable] argument is
    dropped. *)
Fixpoint buildUserPriorityTreeLevelV2 `{JsRuntime} (fuel : nat)
    (previousData currentData : list row) (factorOrder : list string)
    (depth : nat) (parentFilter : gmap string jsval)
    (rootImpact : Qc) (parentTotalImpact : option Qc) : option (list node) :=
  match fuel with
  | O => None
  | S fuel' =>
      match factorOrder !! depth with
      | None => None          (* depth >= factorOrder.length *)
      | Some currentFactor =>
          let filteredPrevious := filterData previousData parentFilter in
          let filteredCurrent := filterData currentData parentFilter in
          let parentTotalImpact :=
            parent_impact previousData currentData filteredPrevious filteredCurrent
              parentTotalImpact in
          build_children previousData currentData filteredPrevious filteredCurrent
            parentFilter currentFactor rootImpact parentTotalImpact
            (λ childFilter impact,
               buildUserPriorityTreeLevelV2 fuel' previousData currentData factorOrder
                 (depth + 1) childFilter rootImpact (Some impact))
      end
  end.

(** ** Auto-max-split tree

    Here the recursion stops at [depth >= 4]; [4 - depth] units of fuel are
    never exhausted first (lemma [auto_fuel_enough]). *)
Fixpoint buildAutoMaxSplitTreeLevelV2 `{JsRuntime} (fuel : nat)
    (previousData currentData : list row)
    (depth : nat) (parentFilter : gmap string jsval)
    (availableFactors : option (list string))
    (rootImpact : Qc) (parentTotalImpact : option Qc) : option (list node) :=
  match fuel with
  | O => None
  | S fuel' =>
      if decide (4 ≤ depth)%nat then None
      else
        let filteredPrevious := filterData previousData parentFilter in
        let filteredCurrent := filterData currentData parentFilter in
        if decide (length filteredPrevious < 10 ∨ length filteredCurrent < 10)%nat
        then None
        else
          let parentTotalImpact :=
            parent_impact previousData currentData filteredPrevious filteredCurrent
              parentTotalImpact in
          match findBestSplitByTotalImpact filteredPrevious filteredCurrent
                  availableFactors with
          | None => None
          | Some bestSplit =>
              build_children previousData currentData filteredPrevious filteredCurrent
                parentFilter (split_factor bestSplit) rootImpact parentTotalImpact
                (λ childFilter impact,
                   buildAutoMaxSplitTreeLevelV2 fuel' previousData currentData
                     (depth + 1) childFilter availableFactors rootImpact (Some impact))
          end
  end.

(** ** Exceptions

    The entry points receive [data.previousMonth] and [data.currentMonth],
    either of which may be missing; reading a property of a missing value
    throws a [TypeError], which the entry points catch and rethrow as an
    [Error] with their own prefix. *)
Inductive js_error :=
  | TypeError (message : string)
  | Error (message : string).

Definition error_message (e : js_error) : string :=
  match e with
  | TypeError m => m
  | Error m => m
  end.

Inductive outcome (A : Type) :=
  | Return (a : A)
  | Throw (e : js_error).
Arguments Return {A} a.
Arguments Throw {A} e.

#[global] Instance outcome_ret : MRet outcome := λ A a, Return a.
#[global] Instance outcome_bind : MBind outcome := λ A B k m,
  match m with
  | Return a => k a
  | Throw e => Throw e
  end.

(** [try { body } catch (error) { throw new Error(prefix + error.message) }] *)
Definition try_rethrow {A} (prefix : string) (body : outcome A) : outcome A :=
  match body with
  | Return a => Return a
  | Throw error => Throw (Error (prefix ++ error_message error))
  end.

(** The message of V8 for a property read on [undefined]. *)
Definition cannot_read (property : string) : js_error :=
  TypeError ("Cannot read properties of undefined (reading '" ++ property ++ "')").

(** [calculateWeightedROI(data)] on an argument that may be missing: the
    guard [!data] returns 0. *)
Definition calculateWeightedROI_of (data : option (list row)) : Qc :=
  match data with
  | None => 0
  | Some data => calculateWeightedROI data
  end.

(** [getTotalAmount(data)] on an argument that may be missing: [data.reduce]
    throws. *)
Definition getTotalAmount_of (data : option (list row)) : outcome Qc :=
  match data with
  | None => Throw (cannot_read "reduce")
  | Some data => Return (getTotalAmount data)
  end.

(** [data.length] on an argument that may be missing. *)
Definition length_of (data : option (list row)) : outcome nat :=
  match data with
  | None => Throw (cannot_read "length")
  | Some data => Return (length data)
  end.

(** A use of both arrays as arrays ([filter], spread) by code that runs
    after the reads above. *)
Definition with_arrays {A} (previousData currentData : option (list row))
    (k : list row → list row → A) : outcome A :=
  match previousData, currentData with
  | Some previousData, Some currentData => Return (k previousData currentData)
  | None, _ => Throw (cannot_read "filter")
  | _, None => Throw (cannot_read "filter")
  end.

(** ** Root nodes *)

(** The root node literal, which the two builders share but for the call
    that produces the children. *)
Definition root_node (rootPreviousROI rootCurrentROI : Qc)
    (previousAmount currentAmount : Qc) (previousCount currentCount : nat)
    (children : option (list node)) : node :=
  let rootROIChange := rootCurrentROI - rootPreviousROI in
  let rootROIChangeBps := bps rootROIChange in
  {| factor := "root";
     value := VStr "Portfolio ROI";
     nfilter := ∅;
     metrics := {|
       previousROI := rootPreviousROI;
       currentROI := rootCurrentROI;
       roiChange := rootROIChange;
       roiChangeBps := rootROIChangeBps;
       yieldImpact := rootROIChange;
       distributionImpact := 0;
       totalImpact := rootROIChange;
       yieldImpactBps := rootROIChangeBps;
       distributionImpactBps := 0;
       totalImpactBps := rootROIChangeBps;
       percentOnParent := None;
       percentOnRoot := Qc_of_Z 100;
       previousAmount := previousAmount;
       currentAmount := currentAmount;
       previousCount := previousCount;
       currentCount := currentCount
     |};
     children := children |}.

Definition buildUserPriorityTreeV2 `{JsRuntime}
    (previousData currentData : option (list row)) (factorOrder : list string)
    (depth : nat) : outcome (option (list node)) :=
  if decide (depth = 0%nat) then
    let rootPreviousROI := calculateWeightedROI_of previousData in
    let rootCurrentROI := calculateWeightedROI_of currentData in
    let rootROIChange := rootCurrentROI - rootPreviousROI in
    previousAmount ← getTotalAmount_of previousData;
    currentAmount ← getTotalAmount_of currentData;
    previousCount ← length_of previousData;
    currentCount ← length_of currentData;
    children ← with_arrays previousData currentData (λ previousData currentData,
      buildUserPriorityTreeLevelV2 (length factorOrder) previousData currentData
        factorOrder 0 ∅ rootROIChange None);
    let rootNode :=
      root_node rootPreviousROI rootCurrentROI previousAmount currentAmount
        previousCount currentCount children in
    mret (Some [rootNode])
  else mret None.

Definition buildAutoMaxSplitTreeV2 `{JsRuntime}
    (previousData currentData : option (list row))
    (depth : nat) (availableFactors : option (list string))
    : outcome (option (list node)) :=
  if decide (depth = 0%nat) then
    let rootPreviousROI := calculateWeightedROI_of previousData in
    let rootCurrentROI := calculateWeightedROI_of currentData in
    let rootROIChange := rootCurrentROI - rootPreviousROI in
    previousAmount ← getTotalAmount_of previousData;
    currentAmount ← getTotalAmount_of currentData;
    previousCount ← length_of previousData;
    currentCount ← length_of currentData;
    children ← with_arrays previousData currentData (λ previousData currentData,
      buildAutoMaxSplitTreeLevelV2 4 previousData currentData
        0 ∅ availableFactors rootROIChange None);
    let rootNode :=
      root_node rootPreviousROI rootCurrentROI previousAmount currentAmount
        previousCount currentCount children in
    mret (Some [rootNode])
  else mret None.

(** ** Tree analytics *)

(** [countNodes]: the closure [traverse] adds the length of every list of
    siblings it visits; [count_below n] is what the visit of [n.children]
    adds. *)
Fixpoint count_below (n : node) : nat :=
  match children n with
  | None => 0%nat
  | Some kids =>
      (length kids +
       (fix traverse (nodes : list node) : nat :=
          match nodes with
          | [] => 0
          | m :: rest => count_below m + traverse rest
          end) kids)%nat
  end.

Definition countNodes (tree : option (list node)) : nat :=
  match tree with
  | None => 0%nat
  | Some nodes => (length nodes + foldr (λ n acc, count_below n + acc) 0 nodes)%nat
  end.

(** [getTreeDepth]: [getDepth(nodes)] is 0 on an empty list and otherwise the
    maximum of 1 and of [1 + getDepth(node.children)] over the nodes that have
    children; [depth_below n] is that second quantity for [n], and 0 when [n]
    has none. *)
Fixpoint depth_below (n : node) : nat :=
  match children n with
  | None => 0%nat
  | Some kids =>
      S match kids with
        | [] => 0%nat
        | _ =>
          (fix getDepth (nodes : list node) : nat :=
             match nodes with
             | [] => 1%nat
             | m :: rest => Nat.max (depth_below m) (getDepth rest)
             end) kids
        end
  end.

Definition getDepth (nodes : list node) : nat :=
  match nodes with
  | [] => 0%nat
  | _ => foldr (λ n acc, Nat.max (depth_below n) acc) 1%nat nodes
  end.

Definition getTreeDepth (tree : option (list node)) : nat :=
  match tree with
  | None => 0%nat
  | Some nodes => getDepth nodes
  end.

(** [calculateImpactSummaryV2]: the running totals and the per-factor
    contributions that the closure [traverse] updates. *)
Record Contribution := {
  c_yieldImpact : Qc;
  c_distributionImpact : Qc;
  c_totalImpact : Qc
}.

Record SummaryState := {
  totalYieldImpact : Qc;
  totalDistributionImpact : Qc;
  factorContributions : gmap string Contribution
}.

Definition visit_node (n : node) (st : SummaryState) : SummaryState :=
  if decide (factor n ≠ "root") then
    let old :=
      default {| c_yieldImpact := 0; c_distributionImpact := 0; c_totalImpact := 0 |}
        (factorContributions st !! factor n) in
    {| totalYieldImpact := totalYieldImpact st + yieldImpact (metrics n);
       totalDistributionImpact :=
         totalDistributionImpact st + distributionImpact (metrics n);
       factorContributions :=
         <[factor n :=
             {| c_yieldImpact := c_yieldImpact old + yieldImpact (metrics n);
                c_distributionImpact :=
                  c_distributionImpact old + distributionImpact (metrics n);
                c_totalImpact := c_totalImpact old + totalImpact (metrics n) |}]>
           (factorContributions st) |}
  else st.

Fixpoint traverse_node (n : node) (st : SummaryState) : SummaryState :=
  let st := visit_node n st in
  match children n with
  | None => st
  | Some kids =>
      (fix traverse (nodes : list node) (st : SummaryState) : SummaryState :=
         match nodes with
         | [] => st
         | m :: rest => traverse rest (traverse_node m st)
         end) kids st
  end.

Record ImpactSummary := {
  s_totalYieldImpact : Qc;
  s_totalDistributionImpact : Qc;
  s_totalImpact : Qc;
  s_totalYieldImpactBps : Qc;
  s_totalDistributionImpactBps : Qc;
  s_totalImpactBps : Qc;
  s_factorContributions : gmap string Contribution
}.

Definition calculateImpactSummaryV2 (tree : option (list node)) : ImpactSummary :=
  let st :=
    fold_left (λ st n, traverse_node n st) (default [] tree)
      {| totalYieldImpact := 0; totalDistributionImpact := 0;
         factorContributions := ∅ |} in
  {| s_totalYieldImpact := totalYieldImpact st;
     s_totalDistributionImpact := totalDistributionImpact st;
     s_totalImpact := totalYieldImpact st + totalDistributionImpact st;
     s_totalYieldImpactBps := bps (totalYieldImpact st);
     s_totalDistributionImpactBps := bps (totalDistributionImpact st);
     s_totalImpactBps := bps (totalYieldImpact st + totalDistributionImpact st);
     s_factorContributions := factorContributions st |}.

(** ** Entry points *)

(** The argument [data]: [const { previousMonth, currentMonth } = data]. *)
Record AnalysisData := {
  previousMonth : option (list row);
  currentMonth : option (list row)
}.

Record Metadata := {
  totalNodes : nat;
  maxDepth : nat;
  totalROIChange : Qc;
  algorithm : string
}.

Record AnalysisResult := {
  analysisType : string;
  version : string;
  factorOrder : option (list string);          (* user-priority only *)
  tree : option (list node);
  featureImportance : option (gmap string Qc); (* auto-max-split only *)
  impactSummary : ImpactSummary;
  metadata : Metadata
}.

(** [calculateTotalROIChange] on arguments that may be missing. *)
Definition calculateTotalROIChange_of (previousData currentData : option (list row)) : Qc :=
  let prevROI := calculateWeightedROI_of previousData in
  let currentROI := calculateWeightedROI_of currentData in
  currentROI - prevROI.

Definition performUserPriorityAnalysisV2 `{JsRuntime}
    (data : AnalysisData) (factorOrder : list string) : outcome AnalysisResult :=
  let previousMonth := previousMonth data in
  let currentMonth := currentMonth data in
  try_rethrow "V2 User-Priority analysis failed: "
    (tree ← buildUserPriorityTreeV2 previousMonth currentMonth factorOrder 0;
     let impactSummary := calculateImpactSummaryV2 tree in
     mret {| analysisType := "user-priority";
             version := "v2";
             factorOrder := Some factorOrder;
             tree := tree;
             featureImportance := None;
             impactSummary := impactSummary;
             metadata := {|
               totalNodes := countNodes tree;
               maxDepth := getTreeDepth tree;
               totalROIChange :=
                 bps (calculateTotalROIChange_of previousMonth currentMonth);
               algorithm := "enhanced-impact-decomposition" |} |}).

Definition performAutoMaxSplitAnalysisV2 `{JsRuntime}
    (data : AnalysisData) (availableFactors : option (list string))
    : outcome AnalysisResult :=
  let previousMonth := previousMonth data in
  let currentMonth := currentMonth data in
  try_rethrow "V2 Auto-Max Split analysis failed: "
    (tree ← buildAutoMaxSplitTreeV2 previousMonth currentMonth 0 availableFactors;
     featureImportance ← with_arrays previousMonth currentMonth
       (λ previousMonth currentMonth,
          calculateTotalImpactFeatureImportance previousMonth currentMonth
            availableFactors);
     let impactSummary := calculateImpactSummaryV2 tree in
     mret {| analysisType := "auto-max-split";
             version := "v2";
             factorOrder := None;
             tree := tree;
             featureImportance := Some featureImportance;
             impactSummary := impactSummary;
             metadata := {|
               totalNodes := countNodes tree;
               maxDepth := getTreeDepth tree;
               totalROIChange :=
                 bps (calculateTotalROIChange_of previousMonth currentMonth);
               algorithm := "total-impact-variance-maximization" |} |}).


(** * Vocabulary of the specification *)

(** The mathematical sum of a list of rationals. *)
Definition Qc_sum (l : list Qc) : Qc := foldr Qcplus 0 l.

(** The cells that hold a number. *)
Definition is_number (v : jsval) : Prop :=
  match v with
  | VNum _ => True
  | _ => False
  end.

#[global] Instance is_number_dec v : Decision (is_number v).
Proof. destruct v; simpl; apply _. Defined.

(** The cells of a numeric column that [v || 0] reads as 0: [undefined],
    [null] and the empty string. *)
Definition missing (v : jsval) : Prop :=
  v = VUndef ∨ v = VNull ∨ v = VStr "".

(** The cells a numeric column may hold: a number or a missing value. *)
Definition numeric_cell (v : jsval) : Prop :=
  is_number v ∨ missing v.

#[global] Instance numeric_cell_dec v : Decision (numeric_cell v).
Proof. unfold numeric_cell, missing. apply _. Defined.

(** The rows whose weight and rate are numeric cells. *)
Definition numeric_row (r : row) : Prop :=
  numeric_cell (get r "total_loan_amount") ∧ numeric_cell (get r "roi").

#[global] Instance numeric_row_dec r : Decision (numeric_row r).
Proof. unfold numeric_row. apply _. Defined.

(** A record collection handed to an entry point is numeric when, if it is
    present, all its rows are. *)
Definition numeric_collection (data : option (list row)) : Prop :=
  match data with
  | Some rows => Forall numeric_row rows
  | None => True
  end.

#[global] Instance numeric_collection_dec data : Decision (numeric_collection data).
Proof. destruct data; simpl; apply _. Defined.

(** The weighted rate as the specification words it: the quotient of the
    two sums, both taken over the records with defined weight and rate, and 0
    when that total weight is 0. *)
Definition weighted_rate_over_defined (data : list row) : Qc :=
  let both :=
    filter (λ r, defined (get r "total_loan_amount") ∧ defined (get r "roi"))
      data in
  let total := Qc_sum (amount_of <$> both) in
  if decide (total = 0) then 0
  else Qc_sum ((λ r, amount_of r * roi_of r) <$> both) / total.

(** The loop body of [findBestSplitByTotalImpact] on its two variables,
    for a given variance function. *)
Definition best_step (var : string → Qc)
    (st : option Split * Qc) (factor : string) : option Split * Qc :=
  let '(bestSplit, bestVariance) := st in
  let variance := var factor in
  if decide (bestVariance < variance)
  then (Some {| split_factor := factor; split_variance := variance |}, variance)
  else (bestSplit, bestVariance).

(** What that loop has established after the candidates [fs]: nothing exceeds
    the best variance, and the best split, if any, is the first candidate that
    attains it. *)
Definition best_inv (var : string → Qc)
    (fs : list string) (st : option Split * Qc) : Prop :=
  (∀ g, g ∈ fs → var g ≤ st.2) ∧
  match st.1 with
  | None => st.2 = 0
  | Some s =>
      st.2 = var (split_factor s) ∧ split_variance s = var (split_factor s) ∧
      0 < var (split_factor s) ∧
      ∃ i, fs !! i = Some (split_factor s) ∧
           ∀ j g, (j < i)%nat → fs !! j = Some g → var g < var (split_factor s)
  end.

(** The per-value total-impact variance of [factor] over a node's subsets,
    the distribution shares being taken against the given totals: the
    selector as section 4.3 of the specification words it takes the full
    portfolio for [totalPrevData] and [totalCurrData]. *)
Definition variance_against `{JsRuntime}
    (prevSubset currSubset totalPrevData totalCurrData : list row)
    (factor : string) : Qc :=
  let distinctValues :=
    getDistinctValuesForFactor (prevSubset ++ currSubset) factor in
  let impacts :=
    omap (λ value,
      let prevValues := filter (λ r, get r factor = value) prevSubset in
      let currValues := filter (λ r, get r factor = value) currSubset in
      if decide (0 < length prevValues ∨ 0 < length currValues)%nat then
        Some (Impact.totalImpact
                (calculateImpactDecomposition prevValues currValues
                   totalPrevData totalCurrData))
      else None) distinctValues in
  if decide (length impacts = 0%nat) then 0
  else
    let mean := reduce_sum id impacts / Qc_of_nat (length impacts) in
    reduce_sum (λ impact, let diff := impact - mean in diff * diff) impacts
    / Qc_of_nat (length impacts).

(** The factor selected for a node against the given totals: the first
    candidate of strictly greatest positive variance, if any; the candidates
    are detected from the node's records when none are given. *)
Definition select_against `{JsRuntime}
    (prevSubset currSubset totalPrevData totalCurrData : list row)
    (availableFactors : option (list string)) : option string :=
  let detected :=
    match availableFactors with
    | Some factors => Some factors
    | None => detectFactors (prevSubset ++ currSubset)
    end in
  candidates ← detected;
  split_factor <$>
  (fold_left
     (best_step (variance_against prevSubset currSubset totalPrevData totalCurrData))
     candidates (None, 0)).1.

(** The sum of the weights of an importance mapping. *)
Definition importance_total (importance : gmap string Qc) : Qc :=
  Qc_sum (snd <$> map_to_list importance).

(** The first loop of [calculateTotalImpactFeatureImportance] on its two
    variables, for a given variance function. *)
Definition importance_step (var : string → Qc)
    (st : gmap string Qc * Qc) (factor : string) : gmap string Qc * Qc :=
  let '(importance, totalImportance) := st in
  let variance := var factor in
  let importance := <[factor := Qc_max 0 variance]> importance in
  (importance, totalImportance + default 0 (importance !! factor)).

(** [in_forest d n nodes]: the node [n] lies [d] levels below the siblings
    [nodes] (it is one of them when [d] is 0). *)
Inductive in_forest : nat → node → list node → Prop :=
  | in_forest_here n nodes :
      n ∈ nodes → in_forest 0 n nodes
  | in_forest_below d n m kids nodes :
      m ∈ nodes → children m = Some kids → in_forest d n kids →
      in_forest (S d) n nodes.

(** The number of siblings that stand for the value [v]. *)
Definition child_count (kids : list node) (v : jsval) : nat :=
  length (filter (λ c, value c = v) kids).

(** The node's own counts and amounts are computed over the records its
    filter selects. *)
Definition metrics_over (previousData currentData : list row) (n : node) : Prop :=
  previousCount (metrics n) = length (filterData previousData (nfilter n)) ∧
  currentCount (metrics n) = length (filterData currentData (nfilter n)) ∧
  previousAmount (metrics n) = getTotalAmount (filterData previousData (nfilter n)) ∧
  currentAmount (metrics n) = getTotalAmount (filterData currentData (nfilter n)).

(** The node [n] at level [lvl] was split into [kids]: the level builder's
    checks [splits] passed for its filter and some factor, and [kids] are the
    children built for that factor from the records its filter selects. *)
Definition split_into `{JsRuntime} (previousData currentData : list row)
    (rootImpact : Qc) (splits : nat → gmap string jsval → string → Prop)
    (lvl : nat) (n : node) (kids : list node) : Prop :=
  ∃ currentFactor parentTotalImpact recur,
    splits lvl (nfilter n) currentFactor ∧
    build_children previousData currentData
      (filterData previousData (nfilter n)) (filterData currentData (nfilter n))
      (nfilter n) currentFactor rootImpact parentTotalImpact recur
    = Some kids.

(** A node built by a level builder: its metrics range over its own filter
    and its children, if any, come from a split of its own filtered records. *)
Definition node_ok `{JsRuntime} (previousData currentData : list row)
    (rootImpact : Qc) (splits : nat → gmap string jsval → string → Prop)
    (lvl : nat) (n : node) : Prop :=
  metrics_over previousData currentData n ∧
  (∀ kids, children n = Some kids →
           split_into previousData currentData rootImpact splits lvl n kids).

(** What the user-priority builder has checked when it splits at [depth]. *)
Definition splits_priority (factorOrder : list string)
    (depth : nat) (flt : gmap string jsval) (currentFactor : string) : Prop :=
  factorOrder !! depth = Some currentFactor.

(** What the auto-max-split builder has checked when it splits at [depth]. *)
Definition splits_auto `{JsRuntime} (previousData currentData : list row)
    (availableFactors : option (list string))
    (depth : nat) (flt : gmap string jsval) (currentFactor : string) : Prop :=
  (depth < 4)%nat ∧
  (10 ≤ length (filterData previousData flt))%nat ∧
  (10 ≤ length (filterData currentData flt))%nat ∧
  ∃ bestSplit,
    findBestSplitByTotalImpact (filterData previousData flt)
      (filterData currentData flt) availableFactors = Some bestSplit ∧
    split_factor bestSplit = currentFactor.

(** * Sample portfolios *)

(** A runtime for the samples.  It renders an integer in decimal, as
    JavaScript does; the factor columns of the samples hold strings, so the
    rendering of other numbers (numerator, a slash, denominator, which is not
    JavaScript's) is never consulted. *)
Definition sample_runtime : JsRuntime := λ q,
  let numerator := NilZero.string_of_int (Z.to_int (Qnum (this q))) in
  if decide (Qden (this q) = 1%positive) then numerator
  else numerator ++ "/" ++ NilZero.string_of_uint (Pos.to_uint (Qden (this q))).

Definition loan (amount rate : Qc) (tier : jsval) : row :=
  [("total_loan_amount", VNum amount); ("roi", VNum rate); ("tier", tier)].

(** The distribution-only shift of section 8: the rate stays at 10% while
    tier A grows from half of the portfolio to four fifths. *)
Definition shift_previous : list row :=
  [loan (Qc_of_Z 50) (Q2Qc (1 # 10)) (VStr "A");
   loan (Qc_of_Z 50) (Q2Qc (1 # 10)) (VStr "B")].

Definition shift_current : list row :=
  [loan (Qc_of_Z 80) (Q2Qc (1 # 10)) (VStr "A");
   loan (Qc_of_Z 20) (Q2Qc (1 # 10)) (VStr "B")].

(** Two loans of weight 1, the second without a rate. *)
Definition unrated_sample : list row :=
  [[("total_loan_amount", VNum 1); ("roi", VNum (Q2Qc (1 # 2)))];
   [("total_loan_amount", VNum 1)]].

(** A portfolio in which one loan has no tier. *)
Definition untiered_previous : list row :=
  [loan (Qc_of_Z 100) (Q2Qc (1 # 10)) (VStr "A");
   loan (Qc_of_Z 50) (Q2Qc (1 # 5)) VNull].

Definition untiered_current : list row :=
  [loan (Qc_of_Z 100) (Q2Qc (3 # 25)) (VStr "A");
   loan (Qc_of_Z 50) (Q2Qc (1 # 5)) VNull].

(** A portfolio whose segment [a = x] holds ten unit loans in each period,
    next to one bulk loan under [a = y] that triples: the segment's share of
    the portfolio halves while nothing changes inside it but the mix of [b]
    and [c]. *)
Definition unit_loan (a b c : string) : row :=
  [("total_loan_amount", VNum 1); ("roi", VNum (Q2Qc (1 # 10)));
   ("a", VStr a); ("b", VStr b); ("c", VStr c)].

Definition bulk_loan (amount : Z) : row :=
  [("total_loan_amount", VNum (Qc_of_Z amount)); ("roi", VNum (Q2Qc (1 # 10)));
   ("a", VStr "y")].

Definition skew_previous : list row :=
  replicate 6 (unit_loan "x" "b1" "c1") ++ replicate 4 (unit_loan "x" "b2" "c2")
  ++ [bulk_loan 10].

Definition skew_current : list row :=
  replicate 6 (unit_loan "x" "b1" "c1") ++ [unit_loan "x" "b1" "c2"]
  ++ replicate 3 (unit_loan "x" "b2" "c2") ++ [bulk_loan 30].

(** The tree an outcome carries, and the node at a path of child indices. *)
Definition tree_of (built : outcome (option (list node))) : list node :=
  match built with
  | Return (Some nodes) => nodes
  | _ => []
  end.

Fixpoint node_at (path : list nat) (nodes : list node) : option node :=
  match path with
  | [] => None
  | [i] => nodes !! i
  | i :: rest => n ← nodes !! i; kids ← children n; node_at rest kids
  end.

Definition shift_tree : list node :=
  tree_of (buildUserPriorityTreeV2 (H := sample_runtime)
             (Some shift_previous) (Some shift_current) ["tier"] 0).

Definition untiered_tree : list node :=
  tree_of (buildUserPriorityTreeV2 (H := sample_runtime)
             (Some untiered_previous) (Some untiered_current) ["tier"] 0).

Definition skew_tree : list node :=
  tree_of (buildAutoMaxSplitTreeV2 (H := sample_runtime)
             (Some skew_previous) (Some skew_current) 0 (Some ["a"; "b"; "c"])).

(** * Properties *)

(** A closed decidable statement is settled by evaluation. *)
Ltac by_evaluation := apply (bool_decide_unpack _); vm_compute; exact I.

(** ** Sums *)

Lemma Qc_sum_nil : Qc_sum [] = 0.
Proof. reflexivity. Qed.

Lemma Qc_sum_cons (x : Qc) (l : list Qc) : Qc_sum (x :: l) = x + Qc_sum l.
Proof. reflexivity. Qed.

Lemma Qc_sum_app (l1 l2 : list Qc) :
  Qc_sum (l1 ++ l2) = Qc_sum l1 + Qc_sum l2.
Proof.
  induction l1 as [|x l1 IH].
  - rewrite Qc_sum_nil. simpl. ring.
  - rewrite <-app_comm_cons, !Qc_sum_cons, IH. ring.
Qed.

Lemma fold_left_sum_acc {A} (f : A → Qc) (l : list A) (a : Qc) :
  fold_left (λ sum x, sum + f x) l a = a + Qc_sum (f <$> l).
Proof.
  revert a. induction l as [|x l IH]; intros a.
  - rewrite fmap_nil, Qc_sum_nil. simpl. ring.
  - rewrite fmap_cons, Qc_sum_cons. simpl. rewrite IH. ring.
Qed.

Lemma reduce_sum_eq {A} (f : A → Qc) (l : list A) :
  reduce_sum f l = Qc_sum (f <$> l).
Proof. unfold reduce_sum. rewrite fold_left_sum_acc. ring. Qed.

Lemma Qc_sum_nonneg (l : list Qc) :
  Forall (λ x, 0 ≤ x) l → 0 ≤ Qc_sum l.
Proof.
  induction 1 as [|x l Hx _ IH].
  - done.
  - rewrite Qc_sum_cons. by apply Qcplus_nonneg_nonneg.
Qed.

Lemma Qc_sum_perm (l1 l2 : list Qc) : l1 ≡ₚ l2 → Qc_sum l1 = Qc_sum l2.
Proof.
  induction 1 as [|x l1 l2 _ IH|x y l|l1 l2 l3 _ IH1 _ IH2];
    rewrite ?Qc_sum_cons; try congruence.
  ring.
Qed.

Lemma getTotalAmount_nonneg (data : list row) :
  Forall (λ r, 0 ≤ amount_of r) data → 0 ≤ getTotalAmount data.
Proof.
  intros Hall. unfold getTotalAmount. rewrite reduce_sum_eq.
  apply Qc_sum_nonneg. by apply Forall_fmap.
Qed.

(** The guard [total > 0 ? x / total : 0] is the guarded quotient whenever
    the total is not negative. *)
Lemma positive_guard (x total : Qc) :
  0 ≤ total →
  (if decide (0 < total) then x / total else 0)
  = (if decide (total = 0) then 0 else x / total).
Proof.
  intros Hnn. destruct (decide (0 < total)) as [Hpos|Hnpos];
    destruct (decide (total = 0)) as [Hz|Hnz]; try done.
  - rewrite Hz in Hpos. by apply Qclt_not_eq in Hpos.
  - apply Qcle_lt_or_eq in Hnn as [?|?]; congruence.
Qed.

(** ** Weighted aggregator and impact decomposition *)

Lemma num_or_zero_not_number (v : jsval) : ¬ is_number v → num_or_zero v = 0.
Proof. by destruct v; simpl; intros Hn; try done; destruct Hn. Qed.

(** A sum over all records equals the sum over those for which the summand
    is read from actual numbers, the others contributing 0. *)
Lemma Qc_sum_filter_zero {A} (f : A → Qc) (P : A → Prop)
    `{!∀ x, Decision (P x)} (l : list A) :
  (∀ x, ¬ P x → f x = 0) →
  Qc_sum (f <$> l) = Qc_sum (f <$> filter P l).
Proof.
  intros Hz. induction l as [|x l IH]; [done|].
  destruct (decide (P x)) as [HP|HP].
  - rewrite filter_cons_True, !fmap_cons, !Qc_sum_cons by done. by rewrite IH.
  - rewrite filter_cons_False, fmap_cons, Qc_sum_cons, (Hz _ HP), IH by done.
    ring.
Qed.

(** C2, as amended.  On rows whose weight and rate are numeric cells, a
    weight or rate that is a number is read as that number and a missing one
    ([undefined], [null], the empty string) as 0; [getTotalAmount] is the sum
    of the weights and [calculateWeightedROI] the quotient of the sum of
    weight times rate by the sum of the weights, both sums over all the
    records.  Hence the numerator ranges over the records that carry both a
    weight and a rate, the denominator over those that carry a weight, with
    or without a rate.  Both return 0 on the empty list, and the average is 0
    when the total weight is 0 (the guard is [totalAmount > 0]; weights are
    non-negative in the data model, and then the guard fails only at 0). *)
Theorem weighted_aggregator_correct (data : list row) :
  Forall numeric_row data →
  (∀ r q, get r "total_loan_amount" = VNum q → amount_of r = q) ∧
  (∀ r q, get r "roi" = VNum q → roi_of r = q) ∧
  (∀ r, missing (get r "total_loan_amount") → amount_of r = 0) ∧
  (∀ r, missing (get r "roi") → roi_of r = 0) ∧
  getTotalAmount data = Qc_sum (amount_of <$> data) ∧
  getTotalAmount data =
    Qc_sum (amount_of <$>
              filter (λ r, is_number (get r "total_loan_amount")) data) ∧
  getTotalAmount [] = 0 ∧
  calculateWeightedROI [] = 0 ∧
  calculateWeightedROI data =
    (if decide (0 < getTotalAmount data)
     then Qc_sum ((λ r, amount_of r * roi_of r) <$> data) / getTotalAmount data
     else 0) ∧
  (getTotalAmount data = 0 → calculateWeightedROI data = 0) ∧
  (Forall (λ r, 0 ≤ amount_of r) data →
   calculateWeightedROI data =
     if decide (getTotalAmount data = 0) then 0
     else
       Qc_sum ((λ r, amount_of r * roi_of r) <$>
                 filter (λ r, is_number (get r "total_loan_amount") ∧
                              is_number (get r "roi")) data)
       / Qc_sum (amount_of <$>
                   filter (λ r, is_number (get r "total_loan_amount")) data)).
Proof.
  intros _.
  assert (calculateWeightedROI data =
            if decide (0 < getTotalAmount data)
            then Qc_sum ((λ r, amount_of r * roi_of r) <$> data) / getTotalAmount data
            else 0) as Hcode.
  { unfold calculateWeightedROI. destruct data as [|r data].
    - rewrite decide_True by done. by rewrite decide_False.
    - rewrite decide_False by done. cbv zeta.
      fold (getTotalAmount (r :: data)). by rewrite reduce_sum_eq. }
  assert (getTotalAmount data =
            Qc_sum (amount_of <$>
                      filter (λ r, is_number (get r "total_loan_amount")) data))
    as Hweights.
  { unfold getTotalAmount. rewrite reduce_sum_eq.
    apply Qc_sum_filter_zero. intros r Hr. by apply num_or_zero_not_number. }
  split_and!.
  - intros r q Hr. unfold amount_of. by rewrite Hr.
  - intros r q Hr. unfold roi_of. by rewrite Hr.
  - intros r [Hr|[Hr|Hr]]; unfold amount_of; by rewrite Hr.
  - intros r [Hr|[Hr|Hr]]; unfold roi_of; by rewrite Hr.
  - apply reduce_sum_eq.
  - exact Hweights.
  - reflexivity.
  - reflexivity.
  - exact Hcode.
  - intros Hzero. rewrite Hcode, Hzero. by rewrite decide_False.
  - intros Hnn. apply getTotalAmount_nonneg in Hnn.
    rewrite Hcode, positive_guard by done.
    destruct (decide (getTotalAmount data = 0)); [done|].
    rewrite <-Hweights. f_equal.
    apply Qc_sum_filter_zero.
    intros x Hx. apply not_and_l in Hx as [Hx|Hx].
    + unfold amount_of. rewrite (num_or_zero_not_number _ Hx). ring.
    + unfold roi_of. rewrite (num_or_zero_not_number _ Hx). ring.
Qed.

(** C2, counterexample.  The average is not taken over the records with
    defined weight and rate: of two loans of weight 1, one at the rate 1/2
    and one without a rate, [calculateWeightedROI] returns 1/4, the weight of
    the loan without a rate counting in the denominator, where the quotient
    over the records with both fields is 1/2. *)
Lemma weighted_rate_over_defined_refuted :
  ¬ (∀ data : list row,
       Forall numeric_row data →
       calculateWeightedROI data = weighted_rate_over_defined data).
Proof.
  intros Hclaim.
  assert (Forall numeric_row unrated_sample) as Hnum by by_evaluation.
  specialize (Hclaim unrated_sample Hnum).
  assert (calculateWeightedROI unrated_sample = Q2Qc (1 # 4)) as Hcode
    by by_evaluation.
  assert (weighted_rate_over_defined unrated_sample = Q2Qc (1 # 2)) as Hspec
    by by_evaluation.
  rewrite Hcode, Hspec in Hclaim. discriminate Hclaim.
Qed.

(** C1.  The decomposition returns the yield impact, the distribution impact
    and their sum as the specification writes them, the sum being exact for
    every input; each distribution weight is the segment's weight over the
    portfolio's under the guard [total > 0], hence 0 when the portfolio's
    weight is 0 and, the weights being non-negative, the quotient otherwise. *)
Theorem impact_decomposition_correct
    (prevData currData totalPrevData totalCurrData : list row) :
  let d := calculateImpactDecomposition prevData currData totalPrevData totalCurrData in
  let guarded (segment total : list row) :=
    if decide (0 < getTotalAmount total)
    then getTotalAmount segment / getTotalAmount total else 0 in
  let share (segment total : list row) :=
    if decide (getTotalAmount total = 0) then 0
    else getTotalAmount segment / getTotalAmount total in
  Impact.yieldImpact d =
    (calculateWeightedROI currData - calculateWeightedROI prevData)
    * Impact.prevDistWeight d ∧
  Impact.distributionImpact d =
    calculateWeightedROI prevData
    * (Impact.currDistWeight d - Impact.prevDistWeight d) ∧
  Impact.totalImpact d = Impact.yieldImpact d + Impact.distributionImpact d ∧
  Impact.prevDistWeight d = guarded prevData totalPrevData ∧
  Impact.currDistWeight d = guarded currData totalCurrData ∧
  (getTotalAmount totalPrevData = 0 → Impact.prevDistWeight d = 0) ∧
  (getTotalAmount totalCurrData = 0 → Impact.currDistWeight d = 0) ∧
  (0 ≤ getTotalAmount totalPrevData →
     Impact.prevDistWeight d = share prevData totalPrevData) ∧
  (0 ≤ getTotalAmount totalCurrData →
     Impact.currDistWeight d = share currData totalCurrData).
Proof.
  cbv zeta. split_and!; try reflexivity.
  - intros Hzero. simpl. rewrite Hzero. by rewrite decide_False.
  - intros Hzero. simpl. rewrite Hzero. by rewrite decide_False.
  - intros Hnn. simpl. by apply positive_guard.
  - intros Hnn. simpl. by apply positive_guard.
Qed.

(** C3.  In both modes the root node has no distribution impact, and its
    total impact is the portfolio's current weighted rate minus its previous
    one, reported in basis points as that difference times 10000. *)
Theorem root_invariant `{JsRuntime} (previousData currentData : list row)
    (factorOrder : list string) (availableFactors : option (list string)) :
  let delta := calculateWeightedROI currentData - calculateWeightedROI previousData in
  let root_ok (tree : outcome (option (list node))) :=
    ∃ root, tree = Return (Some [root]) ∧
      factor root = "root" ∧
      distributionImpact (metrics root) = 0 ∧
      totalImpact (metrics root) = delta ∧
      totalImpactBps (metrics root) = delta * Qc_of_Z 10000 in
  root_ok (buildUserPriorityTreeV2 (Some previousData) (Some currentData) factorOrder 0) ∧
  root_ok (buildAutoMaxSplitTreeV2 (Some previousData) (Some currentData) 0 availableFactors).
Proof.
  cbv zeta. split; (eexists; split; [reflexivity|]); by split_and!.
Qed.

(** ** Factor selector *)

Lemma Qc_square_nonneg (x : Qc) : 0 ≤ x * x.
Proof.
  destruct (Qclt_le_dec x 0) as [Hneg|Hnn].
  - assert (x * x = (- x) * (- x)) as -> by ring.
    assert (0 ≤ - x).
    { assert (0 = - 0) as -> by ring. by apply Qcopp_le_compat, Qclt_le_weak. }
    by apply Qcmult_nonneg_nonneg.
  - by apply Qcmult_nonneg_nonneg.
Qed.

Lemma Qc_of_nat_pos (n : nat) : (0 < n)%nat → 0 < Qc_of_nat n.
Proof.
  intros Hn. unfold Qc_of_nat. rewrite <-Z2Qc_inj_0, <-Z2Qc_inj_lt. lia.
Qed.

Lemma Qc_div_nonneg (x y : Qc) : 0 ≤ x → 0 < y → 0 ≤ x / y.
Proof.
  intros Hx Hy. unfold Qcdiv. apply Qcmult_nonneg_nonneg; [done|].
  by apply Qclt_le_weak, Qcinv_pos.
Qed.

Lemma variance_nonneg `{JsRuntime} (previousData currentData : list row) (factor : string) :
  0 ≤ calculateTotalImpactVariance previousData currentData factor.
Proof.
  unfold calculateTotalImpactVariance. cbv zeta.
  case_decide as Hlen; [done|].
  apply Qc_div_nonneg.
  - rewrite reduce_sum_eq. apply Qc_sum_nonneg.
    apply Forall_fmap, Forall_forall. intros x _. apply Qc_square_nonneg.
  - apply Qc_of_nat_pos. lia.
Qed.

Lemma best_inv_fold (var : string → Qc) (fs : list string) :
  best_inv var fs (fold_left (best_step var) fs (None, 0)).
Proof.
  induction fs as [|f fs IH] using rev_ind.
  - split; [by intros g ?%elem_of_nil|done].
  - rewrite fold_left_app. simpl.
    destruct (fold_left (best_step var) fs (None, 0)) as [b bv].
    destruct IH as [Hmax Hbest]. simpl in Hmax, Hbest.
    unfold best_step. destruct (decide (bv < var f)) as [Hlt|Hnlt].
    + split; simpl.
      * intros g [Hg| ->%list_elem_of_singleton]%elem_of_app; [|done].
        apply Qclt_le_weak. eapply Qcle_lt_trans; [by apply Hmax|done].
      * split_and!; try done.
        { destruct b as [s|]; [destruct Hbest as (-> & _ & Hpos & _)|subst bv];
            [by etrans|done]. }
        exists (length fs). split; [by apply list_lookup_middle|].
        intros j g Hj Hg. rewrite lookup_app_l in Hg by done.
        eapply Qcle_lt_trans; [|done]. apply Hmax. by eapply list_elem_of_lookup_2.
    + apply Qcnot_lt_le in Hnlt. split; simpl.
      * intros g [Hg| ->%list_elem_of_singleton]%elem_of_app; [by apply Hmax|done].
      * destruct b as [s|]; [|done].
        destruct Hbest as (? & ? & ? & i & Hi & Hfirst). split_and!; try done.
        exists i. split; [by apply lookup_app_l_Some|].
        intros j g Hj Hg. apply (Hfirst j g Hj).
        rewrite lookup_app_l in Hg; [done|].
        apply lookup_lt_Some in Hi. lia.
Qed.

Lemma findBestSplit_fold `{JsRuntime} (previousData currentData : list row) (fs : list string) :
  findBestSplitByTotalImpact previousData currentData (Some fs)
  = (fold_left (best_step (calculateTotalImpactVariance previousData currentData))
       fs (None, 0)).1.
Proof.
  reflexivity.
Qed.

(** C4.  The selector returns the candidate whose variance is greatest, the
    first such candidate in candidate order, and only one whose variance is
    positive; it returns none exactly when every candidate's variance is
    zero, which includes the empty candidate list. *)
Theorem best_split_correct `{JsRuntime} (previousData currentData : list row)
    (candidates : list string) :
  let variance := calculateTotalImpactVariance previousData currentData in
  let result := findBestSplitByTotalImpact previousData currentData (Some candidates) in
  (∀ best, result = Some best →
     split_variance best = variance (split_factor best) ∧
     0 < variance (split_factor best) ∧
     ∃ i, candidates !! i = Some (split_factor best) ∧
          (∀ g, g ∈ candidates → variance g ≤ variance (split_factor best)) ∧
          (∀ j g, (j < i)%nat → candidates !! j = Some g →
                  variance g < variance (split_factor best))) ∧
  (result = None ↔ Forall (λ g, variance g = 0) candidates).
Proof.
  cbv zeta. rewrite findBestSplit_fold.
  pose proof (best_inv_fold (calculateTotalImpactVariance previousData currentData)
                candidates) as [Hmax Hbest].
  destruct (fold_left _ candidates (None, 0)) as [b bv]. simpl in *. split.
  - intros best ->. destruct Hbest as (-> & Hv & Hpos & i & Hi & Hfirst).
    split_and!; try done. by exists i.
  - split.
    + intros ->. subst bv. apply Forall_forall. intros g Hg.
      apply Qcle_antisym; [by apply Hmax|apply variance_nonneg].
    + intros Hzero. destruct b as [s|]; [|done].
      destruct Hbest as (_ & _ & Hpos & i & Hi & _).
      apply list_elem_of_lookup_2 in Hi.
      rewrite Forall_forall in Hzero. rewrite (Hzero _ Hi) in Hpos.
      by apply Qclt_not_eq in Hpos.
Qed.

(** ** Distinct values *)

Lemma elem_of_set_spread (l : list jsval) (x : jsval) : x ∈ set_spread l ↔ x ∈ l.
Proof.
  induction l as [|y l IH]; [done|]. simpl.
  rewrite !elem_of_cons, list_elem_of_filter, IH.
  destruct (decide (x = y)); naive_solver.
Qed.

Lemma NoDup_set_spread (l : list jsval) : NoDup (set_spread l).
Proof.
  induction l as [|y l IH]; simpl; [constructor|].
  apply NoDup_cons. split.
  - rewrite list_elem_of_filter. naive_solver.
  - by apply NoDup_filter.
Qed.

Lemma sort_insert_perm `{JsRuntime} (x : jsval) (l : list jsval) :
  sort_insert x l ≡ₚ x :: l.
Proof.
  induction l as [|y l IH]; simpl; [done|].
  destruct (String.ltb _ _); [|done].
  rewrite IH. apply Permutation_swap.
Qed.

Lemma default_sort_perm `{JsRuntime} (l : list jsval) : default_sort l ≡ₚ l.
Proof.
  induction l as [|x l IH]; simpl; [done|].
  by rewrite sort_insert_perm, IH.
Qed.

Lemma elem_of_distinct_values `{JsRuntime} (data : list row) (factor : string) (v : jsval) :
  v ∈ getDistinctValuesForFactor data factor
  ↔ defined v ∧ ∃ r, r ∈ data ∧ get r factor = v.
Proof.
  unfold getDistinctValuesForFactor. cbv zeta.
  rewrite default_sort_perm, elem_of_set_spread, list_elem_of_filter, list_elem_of_fmap.
  naive_solver.
Qed.

Lemma NoDup_distinct_values `{JsRuntime} (data : list row) (factor : string) :
  NoDup (getDistinctValuesForFactor data factor).
Proof.
  unfold getDistinctValuesForFactor. cbv zeta.
  rewrite default_sort_perm. apply NoDup_set_spread.
Qed.

(** ** Filters *)

Lemma matches_singleton (factor : string) (v : jsval) (r : row) :
  matches {[factor := v]} r ↔ get r factor = v.
Proof. unfold matches. by rewrite map_Forall_singleton. Qed.

Lemma matches_empty (r : row) : matches ∅ r.
Proof. apply map_Forall_empty. Qed.

Lemma filterData_empty (data : list row) : filterData data ∅ = data.
Proof.
  unfold filterData. induction data as [|r data IH]; [done|].
  rewrite filter_cons_True by apply matches_empty. by rewrite IH.
Qed.

Lemma elem_of_filterData (data : list row) (flt : gmap string jsval) (r : row) :
  r ∈ filterData data flt ↔ matches flt r ∧ r ∈ data.
Proof. apply list_elem_of_filter. Qed.

Lemma filterData_singleton (data : list row) (factor : string) (v : jsval) :
  filterData data {[factor := v]} = filter (λ r, get r factor = v) data.
Proof.
  unfold filterData. apply list_filter_iff. intros r. apply matches_singleton.
Qed.

(** A row matches the child's filter exactly when it matches the parent's
    and carries [v] under [factor], provided the parent's filter does not
    already pin [factor] to another value. *)
Lemma matches_insert (flt : gmap string jsval) (factor : string) (v : jsval) (r : row) :
  (∀ v', flt !! factor = Some v' → v' = v) →
  matches (<[factor := v]> flt) r ↔ matches flt r ∧ get r factor = v.
Proof.
  intros Hpin. unfold matches. split.
  - intros Hall. split.
    + intros key v' Hkey. destruct (decide (key = factor)) as [->|Hne].
      * rewrite (Hpin _ Hkey). apply (Hall factor v). by rewrite lookup_insert_eq.
      * apply Hall. by rewrite lookup_insert_ne.
    + apply (Hall factor v). by rewrite lookup_insert_eq.
  - intros [Hall Hv] key v' Hkey. destruct (decide (key = factor)) as [->|Hne].
    + rewrite lookup_insert_eq in Hkey. by simplify_eq.
    + rewrite lookup_insert_ne in Hkey by done. by apply Hall.
Qed.

(** ** Children of one split *)

Lemma insert_child_perm (c : node) (l : list node) : insert_child c l ≡ₚ c :: l.
Proof.
  induction l as [|d l IH]; simpl; [done|].
  case_decide; [|done]. rewrite IH. apply Permutation_swap.
Qed.

Lemma sort_children_perm (l : list node) : sort_children l ≡ₚ l.
Proof.
  induction l as [|c l IH]; simpl; [done|].
  by rewrite insert_child_perm, IH.
Qed.

Lemma default_nonempty_or_null {A} (l : list A) :
  default [] (nonempty_or_null l) = l.
Proof. by destruct l. Qed.

Lemma nonempty_or_null_Some {A} (l kids : list A) :
  nonempty_or_null l = Some kids → kids = l ∧ l ≠ [].
Proof. destruct l; simpl; [done|]. by intros [= <-]. Qed.

Section one_split.
Context `{JsRuntime}.
Context (previousData currentData filteredPrevious filteredCurrent : list row).
Context (parentFilter : gmap string jsval) (currentFactor : string).
Context (rootImpact parentTotalImpact : Qc).
Context (recur : gmap string jsval → Qc → option (list node)).

Let child :=
  build_child previousData currentData filteredPrevious filteredCurrent
    parentFilter currentFactor rootImpact parentTotalImpact recur.
Let distinctValues :=
  getDistinctValuesForFactor (filteredPrevious ++ filteredCurrent) currentFactor.

(** What [build_child] stores in the node it returns. *)
Lemma build_child_Some (v : jsval) (c : node) :
  child v = Some c →
  factor c = currentFactor ∧ value c = v ∧
  nfilter c = <[currentFactor := v]> parentFilter ∧
  previousCount (metrics c) = length (filterData filteredPrevious {[currentFactor := v]}) ∧
  currentCount (metrics c) = length (filterData filteredCurrent {[currentFactor := v]}) ∧
  previousAmount (metrics c)
    = getTotalAmount (filterData filteredPrevious {[currentFactor := v]}) ∧
  currentAmount (metrics c)
    = getTotalAmount (filterData filteredCurrent {[currentFactor := v]}) ∧
  children c =
    recur (<[currentFactor := v]> parentFilter)
      (Impact.totalImpact
         (calculateImpactDecomposition
            (filterData filteredPrevious {[currentFactor := v]})
            (filterData filteredCurrent {[currentFactor := v]})
            previousData currentData)).
Proof.
  unfold child, build_child. cbv zeta. case_decide; [|done].
  intros [= <-]. by split_and!.
Qed.

(** A value enumerated for the split always has a matching record, so the
    guard of the loop body never skips it. *)
Lemma build_child_is_Some (v : jsval) :
  v ∈ distinctValues → ∃ c, child v = Some c.
Proof.
  intros (_ & r & Hr & Hv)%elem_of_distinct_values.
  unfold child, build_child. cbv zeta. rewrite decide_True; [by eexists|].
  rewrite !filterData_singleton.
  apply elem_of_app in Hr as [Hr|Hr]; [left|right].
  all: assert (r ∈ filter (λ r0, get r0 currentFactor = v) _) as Hin
         by (apply list_elem_of_filter; split; [exact Hv|exact Hr]).
  all: destruct (filter _ _); [by apply elem_of_nil in Hin|simpl; lia].
Qed.

Lemma omap_child_values (vals : list jsval) :
  (∀ v, v ∈ vals → v ∈ distinctValues) →
  value <$> omap child vals = vals.
Proof.
  induction vals as [|v vals IH]; intros Hsub; [done|].
  destruct (build_child_is_Some v) as [c Hc]; [apply Hsub; left|].
  simpl. rewrite Hc. simpl.
  destruct (build_child_Some _ _ Hc) as (_ & -> & _).
  f_equal. apply IH. intros v' Hv'. apply Hsub. by right.
Qed.

Lemma build_children_values :
  value <$> default []
    (build_children previousData currentData filteredPrevious filteredCurrent
       parentFilter currentFactor rootImpact parentTotalImpact recur)
  ≡ₚ distinctValues.
Proof.
  unfold build_children. cbv zeta. rewrite default_nonempty_or_null.
  rewrite sort_children_perm. by rewrite omap_child_values.
Qed.

Lemma build_children_elem (c : node) :
  c ∈ default []
    (build_children previousData currentData filteredPrevious filteredCurrent
       parentFilter currentFactor rootImpact parentTotalImpact recur)
  → ∃ v, v ∈ distinctValues ∧ child v = Some c.
Proof.
  unfold build_children. cbv zeta. rewrite default_nonempty_or_null.
  rewrite sort_children_perm. by intros (v & Hv & Hc)%list_elem_of_omap; exists v.
Qed.
End one_split.

(** ** Nodes of a tree *)

Section forest.
Context `{JsRuntime} (previousData currentData : list row) (rootImpact : Qc).
(** [splits lvl flt factor]: what a level builder has checked when it splits
    the node with filter [flt] at level [lvl] on [factor]. *)
Context (splits : nat → gmap string jsval → string → Prop).
Context (level : nat → nat → gmap string jsval → option Qc → option (list node)).
Hypothesis level_unfold : ∀ fuel depth parentFilter parentTotalImpact kids,
  level fuel depth parentFilter parentTotalImpact = Some kids →
  ∃ fuel' currentFactor parentTotalImpact',
    fuel = S fuel' ∧ splits depth parentFilter currentFactor ∧
    build_children previousData currentData
      (filterData previousData parentFilter) (filterData currentData parentFilter)
      parentFilter currentFactor rootImpact parentTotalImpact'
      (λ childFilter impact, level fuel' (depth + 1) childFilter (Some impact))
    = Some kids.

Lemma child_ok fuel depth parentFilter currentFactor parentTotalImpact v c :
  v ∈ getDistinctValuesForFactor
        (filterData previousData parentFilter ++ filterData currentData parentFilter)
        currentFactor →
  build_child previousData currentData
    (filterData previousData parentFilter) (filterData currentData parentFilter)
    parentFilter currentFactor rootImpact parentTotalImpact
    (λ childFilter impact, level fuel (depth + 1) childFilter (Some impact)) v
  = Some c →
  node_ok previousData currentData rootImpact splits (depth + 1) c ∧
  ∃ impact, children c = level fuel (depth + 1) (nfilter c) (Some impact).
Proof.
  intros (_ & r & Hr & Hv)%elem_of_distinct_values
         (_ & _ & Hflt & Hpc & Hcc & Hpa & Hca & Hkids)%build_child_Some.
  assert (∀ v', parentFilter !! currentFactor = Some v' → v' = v) as Hpin.
  { intros v' Hv'. rewrite <-Hv.
    apply elem_of_app in Hr as [[Hr _]%elem_of_filterData|[Hr _]%elem_of_filterData];
      symmetry; by apply (Hr currentFactor v'). }
  assert (∀ data, filterData (filterData data parentFilter) {[currentFactor := v]}
                  = filterData data (nfilter c)) as Hsub.
  { intros data. rewrite Hflt. unfold filterData. rewrite list_filter_filter.
    apply list_filter_iff. intros r'.
    rewrite matches_singleton, matches_insert by done. tauto. }
  rewrite !Hsub in *. rewrite <-Hflt in Hkids. split; [split|by eexists].
  - by split_and!.
  - intros kids Hc. rewrite Hkids in Hc.
    apply level_unfold in Hc as (fuel' & f & pi & _ & Hsplits & Hc).
    by exists f, pi, (λ childFilter impact,
                        level fuel' (depth + 1 + 1) childFilter (Some impact)).
Qed.

(** Every node below a level call is a split child: its metrics range over
    its own filter, its parent passed the builder's checks one level up, and
    its children, if any, come from a split of its own filtered records. *)
Lemma forest_ok fuel : ∀ depth parentFilter parentTotalImpact kids,
  level fuel depth parentFilter parentTotalImpact = Some kids →
  ∀ d n, in_forest d n kids →
    node_ok previousData currentData rootImpact splits (depth + 1 + d) n ∧
    ∃ flt f, splits (depth + d) flt f.
Proof.
  induction fuel as [|fuel IH]; intros depth pf pi kids Hlevel d n Hin.
  { apply level_unfold in Hlevel as (? & ? & ? & [=] & _). }
  apply level_unfold in Hlevel as (fuel' & f & pi' & [= <-] & Hsplits & Hkids).
  assert (∀ m, m ∈ kids →
            node_ok previousData currentData rootImpact splits (depth + 1) m ∧
            ∃ impact, children m = level fuel (depth + 1) (nfilter m) (Some impact))
    as Hchild.
  { intros m Hm. pose proof (build_children_elem previousData currentData
      (filterData previousData pf) (filterData currentData pf) pf f rootImpact pi'
      (λ childFilter impact, level fuel (depth + 1) childFilter (Some impact))
      m) as Helem.
    rewrite Hkids in Helem. destruct (Helem Hm) as (v & Hv & Hc).
    by eapply child_ok. }
  inversion Hin as [? ? Hn|d' ? m kids' ? Hm Hmk Hbelow]; subst.
  - rewrite !Nat.add_0_r. split; [by apply Hchild|by exists pf, f].
  - destruct (Hchild m Hm) as [_ [impact Hmkids]]. rewrite Hmk in Hmkids.
    symmetry in Hmkids. destruct (IH _ _ _ _ Hmkids d' n Hbelow) as [Hok Hpar].
    replace (depth + 1 + S d')%nat with (depth + 1 + 1 + d')%nat by lia.
    replace (depth + S d')%nat with (depth + 1 + d')%nat by lia. done.
Qed.

(** The same for a whole tree, the root being at level 0. *)
Lemma tree_ok fuel rootPreviousROI rootCurrentROI d n :
  in_forest d n
    [root_node rootPreviousROI rootCurrentROI
       (getTotalAmount previousData) (getTotalAmount currentData)
       (length previousData) (length currentData)
       (level fuel 0%nat ∅ None)] →
  node_ok previousData currentData rootImpact splits d n ∧
  (d = 0%nat ∨ ∃ flt f, splits (d - 1) flt f).
Proof.
  intros Hin.
  inversion Hin as [? ? Hn|d' ? m kids' ? Hm Hmk Hbelow]; subst.
  - apply list_elem_of_singleton in Hn as ->. split; [|by left]. split.
    + unfold metrics_over. simpl. by rewrite !filterData_empty.
    + simpl. intros kids Hkids.
      apply level_unfold in Hkids as (fuel' & f & pi & _ & Hsplits & Hkids).
      by exists f, pi, (λ childFilter impact,
                          level fuel' (0 + 1) childFilter (Some impact)).
  - apply list_elem_of_singleton in Hm as ->. simpl in Hmk.
    destruct (forest_ok _ _ _ _ _ Hmk d' n Hbelow) as [Hok Hpar].
    split; [done|right]. by rewrite Nat.sub_succ, Nat.sub_0_r.
Qed.
End forest.

(** ** The two builders as instances *)

Lemma priority_level_unfold `{JsRuntime} previousData currentData factorOrder rootImpact
    fuel depth parentFilter parentTotalImpact kids :
  buildUserPriorityTreeLevelV2 fuel previousData currentData factorOrder depth
    parentFilter rootImpact parentTotalImpact = Some kids →
  ∃ fuel' currentFactor parentTotalImpact',
    fuel = S fuel' ∧ splits_priority factorOrder depth parentFilter currentFactor ∧
    build_children previousData currentData
      (filterData previousData parentFilter) (filterData currentData parentFilter)
      parentFilter currentFactor rootImpact parentTotalImpact'
      (λ childFilter impact,
         buildUserPriorityTreeLevelV2 fuel' previousData currentData factorOrder
           (depth + 1) childFilter rootImpact (Some impact))
    = Some kids.
Proof.
  destruct fuel as [|fuel']; simpl; [done|].
  destruct (factorOrder !! depth) as [currentFactor|] eqn:Hfactor; [|done].
  intros Hkids. by eexists fuel', currentFactor, _.
Qed.

Lemma auto_level_unfold `{JsRuntime} previousData currentData availableFactors rootImpact
    fuel depth parentFilter parentTotalImpact kids :
  buildAutoMaxSplitTreeLevelV2 fuel previousData currentData depth
    parentFilter availableFactors rootImpact parentTotalImpact = Some kids →
  ∃ fuel' currentFactor parentTotalImpact',
    fuel = S fuel' ∧
    splits_auto previousData currentData availableFactors depth parentFilter
      currentFactor ∧
    build_children previousData currentData
      (filterData previousData parentFilter) (filterData currentData parentFilter)
      parentFilter currentFactor rootImpact parentTotalImpact'
      (λ childFilter impact,
         buildAutoMaxSplitTreeLevelV2 fuel' previousData currentData
           (depth + 1) childFilter availableFactors rootImpact (Some impact))
    = Some kids.
Proof.
  destruct fuel as [|fuel']; simpl; [done|].
  destruct (decide (4 ≤ depth)%nat) as [|Hdepth]; [done|].
  destruct (decide (_ ∨ _)) as [|Hsize]; [done|].
  destruct (findBestSplitByTotalImpact _ _ _) as [bestSplit|] eqn:Hbest; [|done].
  intros Hkids. eexists fuel', (split_factor bestSplit), _.
  split_and!; [done| |done]. unfold splits_auto. split_and!; [lia..|by eexists].
Qed.

Lemma Return_Some_inj {A} (a b : A) : Return (Some a) = Return (Some b) → a = b.
Proof. congruence. Qed.

Lemma priority_tree_eq `{JsRuntime} previousData currentData factorOrder :
  buildUserPriorityTreeV2 (Some previousData) (Some currentData) factorOrder 0
  = Return (Some
      [root_node (calculateWeightedROI previousData) (calculateWeightedROI currentData)
         (getTotalAmount previousData) (getTotalAmount currentData)
         (length previousData) (length currentData)
         (buildUserPriorityTreeLevelV2 (length factorOrder) previousData currentData
            factorOrder 0 ∅
            (calculateWeightedROI currentData - calculateWeightedROI previousData)
            None)]).
Proof. reflexivity. Qed.

Lemma auto_tree_eq `{JsRuntime} previousData currentData availableFactors :
  buildAutoMaxSplitTreeV2 (Some previousData) (Some currentData) 0 availableFactors
  = Return (Some
      [root_node (calculateWeightedROI previousData) (calculateWeightedROI currentData)
         (getTotalAmount previousData) (getTotalAmount currentData)
         (length previousData) (length currentData)
         (buildAutoMaxSplitTreeLevelV2 4 previousData currentData 0 ∅
            availableFactors
            (calculateWeightedROI currentData - calculateWeightedROI previousData)
            None)]).
Proof. reflexivity. Qed.

Lemma priority_tree_ok `{JsRuntime} previousData currentData factorOrder tree :
  buildUserPriorityTreeV2 (Some previousData) (Some currentData) factorOrder 0
    = Return (Some tree) →
  ∀ d n, in_forest d n tree →
    node_ok previousData currentData
      (calculateWeightedROI currentData - calculateWeightedROI previousData)
      (splits_priority factorOrder) d n ∧
    (d = 0%nat ∨ ∃ flt f, splits_priority factorOrder (d - 1) flt f).
Proof.
  rewrite priority_tree_eq. intros Htree d n Hin.
  apply Return_Some_inj in Htree. rewrite <-Htree in Hin. clear Htree.
  eapply (tree_ok _ _ _ _
            (λ fuel depth flt impact,
               buildUserPriorityTreeLevelV2 fuel previousData currentData factorOrder
                 depth flt _ impact)); [|exact Hin].
  intros fuel depth flt impact kids Hlevel. by apply priority_level_unfold in Hlevel.
Qed.

Lemma auto_tree_ok `{JsRuntime} previousData currentData availableFactors tree :
  buildAutoMaxSplitTreeV2 (Some previousData) (Some currentData) 0 availableFactors
    = Return (Some tree) →
  ∀ d n, in_forest d n tree →
    node_ok previousData currentData
      (calculateWeightedROI currentData - calculateWeightedROI previousData)
      (splits_auto previousData currentData availableFactors) d n ∧
    (d = 0%nat ∨
     ∃ flt f, splits_auto previousData currentData availableFactors (d - 1) flt f).
Proof.
  rewrite auto_tree_eq. intros Htree d n Hin.
  apply Return_Some_inj in Htree. rewrite <-Htree in Hin. clear Htree.
  eapply (tree_ok _ _ _ _
            (λ fuel depth flt impact,
               buildAutoMaxSplitTreeLevelV2 fuel previousData currentData
                 depth flt availableFactors _ impact)); [|exact Hin].
  intros fuel depth flt impact kids Hlevel. by apply auto_level_unfold in Hlevel.
Qed.

(** C6.  In an auto-split tree no node lies more than 4 levels below the
    root, and a node has children only if its filter selects at least 10
    records of the previous period and at least 10 of the current one. *)
Theorem auto_tree_bounds `{JsRuntime} (previousData currentData : list row)
    (availableFactors : option (list string)) (tree : list node) :
  buildAutoMaxSplitTreeV2 (Some previousData) (Some currentData) 0 availableFactors
    = Return (Some tree) →
  ∀ d n, in_forest d n tree →
    (d ≤ 4)%nat ∧
    (is_Some (children n) →
       (10 ≤ length (filterData previousData (nfilter n)))%nat ∧
       (10 ≤ length (filterData currentData (nfilter n)))%nat).
Proof.
  intros Htree d n Hin.
  destruct (auto_tree_ok _ _ _ _ Htree d n Hin) as [[_ Hsplit] Hlevel]. split.
  - destruct Hlevel as [->|(flt & f & Hd & _)]; lia.
  - intros [kids Hkids].
    destruct (Hsplit kids Hkids) as (f & pi & recur & (_ & Hp & Hc & _) & _). done.
Qed.

(** ** Completeness of the children of a split *)

Lemma length_filter_fmap {A B} `{EqDecision B} (f : A → B) (l : list A) (y : B) :
  length (filter (λ x, f x = y) l) = length (filter (λ z, z = y) (f <$> l)).
Proof.
  induction l as [|x l IH]; [done|]. rewrite fmap_cons, !filter_cons.
  destruct (decide (f x = y)); simpl; by rewrite IH.
Qed.

Lemma length_filter_eq_NoDup {B} `{EqDecision B} (l : list B) (y : B) :
  NoDup l →
  length (filter (λ z, z = y) l) = if decide (y ∈ l) then 1%nat else 0%nat.
Proof.
  induction 1 as [|x l Hx Hnd IH]; [done|].
  rewrite filter_cons. destruct (decide (x = y)) as [->|Hne]; simpl.
  - rewrite decide_True by left. rewrite IH, decide_False; done.
  - rewrite IH. destruct (decide (y ∈ l)) as [Hy|Hy].
    + by rewrite decide_True by by right.
    + rewrite decide_False; [done|]. by intros [?|?]%elem_of_cons.
Qed.

Lemma split_children_spec `{JsRuntime}
    previousData currentData filteredPrevious filteredCurrent parentFilter
    currentFactor rootImpact parentTotalImpact recur kids :
  build_children previousData currentData filteredPrevious filteredCurrent
    parentFilter currentFactor rootImpact parentTotalImpact recur = Some kids →
  Forall (λ c, factor c = currentFactor ∧ defined (value c) ∧
               nfilter c = <[currentFactor := value c]> parentFilter) kids ∧
  ∀ v, child_count kids v =
       if decide (v ∈ getDistinctValuesForFactor
                        (filteredPrevious ++ filteredCurrent) currentFactor)
       then 1%nat else 0%nat.
Proof.
  intros Hkids. split.
  - apply Forall_forall. intros c Hc.
    pose proof (build_children_elem previousData currentData filteredPrevious
      filteredCurrent parentFilter currentFactor rootImpact parentTotalImpact
      recur c) as Helem.
    rewrite Hkids in Helem. destruct (Helem Hc) as (v & Hv & Hchild).
    apply build_child_Some in Hchild as (? & <- & ? & _).
    apply elem_of_distinct_values in Hv as [? _]. done.
  - intros v. unfold child_count. rewrite length_filter_fmap.
    pose proof (build_children_values previousData currentData filteredPrevious
      filteredCurrent parentFilter currentFactor rootImpact parentTotalImpact
      recur) as Hperm.
    rewrite Hkids in Hperm. simpl in Hperm. rewrite Hperm.
    apply length_filter_eq_NoDup, NoDup_distinct_values.
Qed.

(** C7.  At every split of either tree, all children carry the splitting
    factor; each defined value of that factor found in the node's
    filter-restricted records of either period is the value of exactly one
    child; and a value that no such record carries is the value of none. *)
Theorem children_complete `{JsRuntime} (previousData currentData : list row)
    (factorOrder : list string) (availableFactors : option (list string))
    (tree : list node) :
  buildUserPriorityTreeV2 (Some previousData) (Some currentData) factorOrder 0
    = Return (Some tree) ∨
  buildAutoMaxSplitTreeV2 (Some previousData) (Some currentData) 0 availableFactors
    = Return (Some tree) →
  ∀ d n kids, in_forest d n tree → children n = Some kids →
  ∃ splitFactor,
    let restricted :=
      (filterData previousData (nfilter n) ++ filterData currentData (nfilter n))%list in
    Forall (λ c, factor c = splitFactor) kids ∧
    (∀ v, defined v → (∃ r, r ∈ restricted ∧ get r splitFactor = v) →
          child_count kids v = 1%nat) ∧
    (∀ v, ¬ (∃ r, r ∈ restricted ∧ get r splitFactor = v) →
          child_count kids v = 0%nat).
Proof.
  intros Htree d n kids Hin Hkids.
  assert (∃ f pi recur,
    build_children previousData currentData
      (filterData previousData (nfilter n)) (filterData currentData (nfilter n))
      (nfilter n) f
      (calculateWeightedROI currentData - calculateWeightedROI previousData)
      pi recur = Some kids) as (f & pi & recur & Hsplit).
  { destruct Htree as [Htree|Htree].
    - destruct (priority_tree_ok _ _ _ _ Htree d n Hin) as [[_ Hs] _].
      destruct (Hs kids Hkids) as (f & pi & recur & _ & Hb). by exists f, pi, recur.
    - destruct (auto_tree_ok _ _ _ _ Htree d n Hin) as [[_ Hs] _].
      destruct (Hs kids Hkids) as (f & pi & recur & _ & Hb). by exists f, pi, recur. }
  apply split_children_spec in Hsplit as [Hall Hcount].
  exists f. cbv zeta. split_and!.
  - eapply Forall_impl; [exact Hall|]. by intros c (? & _).
  - intros v Hdef Hrec. rewrite Hcount, decide_True; [done|].
    by apply elem_of_distinct_values.
  - intros v Hrec. rewrite Hcount, decide_False; [done|].
    by intros [_ ?]%elem_of_distinct_values.
Qed.

(** ** Records left out of a split *)

Section partition.
Context {A : Type} (key : A → jsval).

Lemma filter_key_cons (v : jsval) (vals : list jsval) (l : list A) :
  v ∉ vals →
  filter (λ x, key x = v) l ++ filter (λ x, key x ∈ vals) l
  ≡ₚ filter (λ x, key x ∈ v :: vals) l.
Proof.
  intros Hv. induction l as [|x l IH]; [done|].
  rewrite !filter_cons.
  destruct (decide (key x = v)) as [Hx|Hx].
  - rewrite decide_False by (by rewrite Hx).
    rewrite decide_True by (rewrite Hx; left). simpl. by rewrite IH.
  - destruct (decide (key x ∈ vals)) as [Hin|Hin].
    + rewrite decide_True by (by right).
      rewrite <-Permutation_middle. by rewrite IH.
    + rewrite decide_False; [done|]. by intros [?|?]%elem_of_cons.
Qed.

(** Splitting a list by the values of a key, one part per listed value,
    yields exactly its elements whose key is listed. *)
Lemma join_filter_key (vals : list jsval) (l : list A) :
  NoDup vals →
  mjoin ((λ v, filter (λ x, key x = v) l) <$> vals)
  ≡ₚ filter (λ x, key x ∈ vals) l.
Proof.
  induction 1 as [|v vals Hv _ IH].
  - simpl. induction l as [|x l IHl]; [done|].
    rewrite filter_cons, decide_False; [done|]. apply not_elem_of_nil.
  - rewrite fmap_cons. simpl. rewrite IH. by apply filter_key_cons.
Qed.
End partition.

Lemma filter_ext_in {A} (P Q : A → Prop) `{!∀ x, Decision (P x)} `{!∀ x, Decision (Q x)}
    (l : list A) :
  (∀ x, x ∈ l → P x ↔ Q x) → filter P l = filter Q l.
Proof.
  induction l as [|x l IH]; intros Hext; [done|].
  rewrite !filter_cons.
  assert (filter P l = filter Q l) as -> by (apply IH; intros y Hy; apply Hext; by right).
  destruct (decide (P x)) as [HP|HP], (decide (Q x)) as [HQ|HQ]; try done.
  - destruct HQ. apply Hext; [left|done].
  - destruct HP. apply Hext; [left|done].
Qed.

Lemma getTotalAmount_perm (l1 l2 : list row) :
  l1 ≡ₚ l2 → getTotalAmount l1 = getTotalAmount l2.
Proof.
  intros Hperm. unfold getTotalAmount. rewrite !reduce_sum_eq.
  apply Qc_sum_perm. by rewrite Hperm.
Qed.

Lemma getTotalAmount_app (l1 l2 : list row) :
  getTotalAmount (l1 ++ l2) = getTotalAmount l1 + getTotalAmount l2.
Proof.
  unfold getTotalAmount. rewrite !reduce_sum_eq, fmap_app. apply Qc_sum_app.
Qed.

Lemma getTotalAmount_join (ls : list (list row)) :
  getTotalAmount (mjoin ls) = Qc_sum (getTotalAmount <$> ls).
Proof.
  induction ls as [|l ls IH]; [done|].
  rewrite fmap_cons, Qc_sum_cons, <-IH. apply getTotalAmount_app.
Qed.

Lemma fmap_omap_Some {A B C} (child : A → option B) (g : B → C) (h : A → C)
    (vals : list A) :
  (∀ v, v ∈ vals → ∃ c, child v = Some c ∧ g c = h v) →
  g <$> omap child vals = h <$> vals.
Proof.
  induction vals as [|v vals IH]; intros Hall; [done|].
  destruct (Hall v) as (c & Hc & Hg); [left|].
  simpl. rewrite Hc. simpl. rewrite Hg. f_equal.
  apply IH. intros v' Hv'. apply Hall. by right.
Qed.

Section left_out.
Context `{JsRuntime}.
Context (previousData currentData filteredPrevious filteredCurrent : list row).
Context (parentFilter : gmap string jsval) (currentFactor : string).
Context (rootImpact parentTotalImpact : Qc).
Context (recur : gmap string jsval → Qc → option (list node)).
Context (kids : list node).
Hypothesis Hkids :
  build_children previousData currentData filteredPrevious filteredCurrent
    parentFilter currentFactor rootImpact parentTotalImpact recur = Some kids.

Let distinctValues :=
  getDistinctValuesForFactor (filteredPrevious ++ filteredCurrent) currentFactor.

(** The children's fields, in some order, are those of the enumerated
    values. *)
Lemma children_fields {C} (g : node → C) (h : jsval → C) :
  (∀ v c,
     build_child previousData currentData filteredPrevious filteredCurrent
       parentFilter currentFactor rootImpact parentTotalImpact recur v = Some c →
     g c = h v) →
  g <$> kids ≡ₚ h <$> distinctValues.
Proof.
  intros Hgh. unfold build_children in Hkids. cbv zeta in Hkids.
  apply nonempty_or_null_Some in Hkids as [-> _].
  rewrite sort_children_perm.
  erewrite fmap_omap_Some; [done|]. intros v Hv.
  destruct (build_child_is_Some previousData currentData filteredPrevious
              filteredCurrent parentFilter currentFactor rootImpact
              parentTotalImpact recur v Hv) as [c Hc].
  exists c. split; [done|]. by apply Hgh.
Qed.

Lemma defined_rows (data : list row) :
  data ⊆ (filteredPrevious ++ filteredCurrent)%list →
  filter (λ r, get r currentFactor ∈ distinctValues) data
  = filter (λ r, defined (get r currentFactor)) data.
Proof.
  intros Hsub. apply filter_ext_in. intros r Hr.
  unfold distinctValues. rewrite elem_of_distinct_values. split; [by intros [? _]|].
  intros Hdef. split; [done|]. exists r. split; [by apply Hsub|done].
Qed.

Lemma children_counts (data : list row) (count : node → nat) :
  data ⊆ (filteredPrevious ++ filteredCurrent)%list →
  (∀ v c,
     build_child previousData currentData filteredPrevious filteredCurrent
       parentFilter currentFactor rootImpact parentTotalImpact recur v = Some c →
     count c = length (filterData data {[currentFactor := v]})) →
  sum_list (count <$> kids)
  = length (filter (λ r, defined (get r currentFactor)) data).
Proof.
  intros Hsub Hcount.
  rewrite (children_fields count _ Hcount).
  rewrite <-defined_rows by done.
  rewrite <-(join_filter_key (λ r, get r currentFactor) distinctValues data)
    by apply NoDup_distinct_values.
  rewrite length_join, <-list_fmap_compose. f_equal.
  apply list_fmap_ext. intros _ v _. simpl. by rewrite filterData_singleton.
Qed.

Lemma children_amounts (data : list row) (amount : node → Qc) :
  data ⊆ (filteredPrevious ++ filteredCurrent)%list →
  (∀ v c,
     build_child previousData currentData filteredPrevious filteredCurrent
       parentFilter currentFactor rootImpact parentTotalImpact recur v = Some c →
     amount c = getTotalAmount (filterData data {[currentFactor := v]})) →
  Qc_sum (amount <$> kids)
  = getTotalAmount (filter (λ r, defined (get r currentFactor)) data).
Proof.
  intros Hsub Hamount.
  rewrite (Qc_sum_perm _ _ (children_fields amount _ Hamount)).
  rewrite <-defined_rows by done.
  rewrite <-(getTotalAmount_perm _ _
               (join_filter_key (λ r, get r currentFactor) distinctValues data
                  (NoDup_distinct_values _ _))).
  rewrite getTotalAmount_join, <-list_fmap_compose. f_equal.
  apply list_fmap_ext. intros _ v _. simpl. by rewrite filterData_singleton.
Qed.
End left_out.

(** C10.  At every split of either tree the children stand for defined
    values only, and a record whose value for the splitting factor is [null]
    or [undefined] matches no child's filter; the parent's own counts and
    amounts range over all the records its filter selects, such records
    included, while the children's counts and amounts add up to those of the
    records with a defined value.  So wherever a selected record lacks the
    splitting factor, the children's record counts add up to strictly less
    than the parent's. *)
Theorem undefined_values_left_out `{JsRuntime} (previousData currentData : list row)
    (factorOrder : list string) (availableFactors : option (list string))
    (tree : list node) :
  buildUserPriorityTreeV2 (Some previousData) (Some currentData) factorOrder 0
    = Return (Some tree) ∨
  buildAutoMaxSplitTreeV2 (Some previousData) (Some currentData) 0 availableFactors
    = Return (Some tree) →
  ∀ d n kids, in_forest d n tree → children n = Some kids →
  ∃ splitFactor,
    let filteredPrevious := filterData previousData (nfilter n) in
    let filteredCurrent := filterData currentData (nfilter n) in
    let has_value (r : row) := defined (get r splitFactor) in
    Forall (λ c, factor c = splitFactor ∧ defined (value c)) kids ∧
    (∀ r c, ¬ has_value r → c ∈ kids → ¬ matches (nfilter c) r) ∧
    previousCount (metrics n) = length filteredPrevious ∧
    currentCount (metrics n) = length filteredCurrent ∧
    previousAmount (metrics n) = getTotalAmount filteredPrevious ∧
    currentAmount (metrics n) = getTotalAmount filteredCurrent ∧
    sum_list ((λ c, previousCount (metrics c)) <$> kids)
      = length (filter has_value filteredPrevious) ∧
    sum_list ((λ c, currentCount (metrics c)) <$> kids)
      = length (filter has_value filteredCurrent) ∧
    Qc_sum ((λ c, previousAmount (metrics c)) <$> kids)
      = getTotalAmount (filter has_value filteredPrevious) ∧
    Qc_sum ((λ c, currentAmount (metrics c)) <$> kids)
      = getTotalAmount (filter has_value filteredCurrent) ∧
    ((∃ r, r ∈ filteredPrevious ∧ ¬ has_value r) →
       (sum_list ((λ c, previousCount (metrics c)) <$> kids)
        < previousCount (metrics n))%nat) ∧
    ((∃ r, r ∈ filteredCurrent ∧ ¬ has_value r) →
       (sum_list ((λ c, currentCount (metrics c)) <$> kids)
        < currentCount (metrics n))%nat).
Proof.
  intros Htree d n kids Hin Hkids.
  assert (metrics_over previousData currentData n ∧ ∃ f pi recur,
    build_children previousData currentData
      (filterData previousData (nfilter n)) (filterData currentData (nfilter n))
      (nfilter n) f
      (calculateWeightedROI currentData - calculateWeightedROI previousData)
      pi recur = Some kids) as [(Hpc & Hcc & Hpa & Hca) (f & pi & recur & Hsplit)].
  { destruct Htree as [Htree|Htree].
    - destruct (priority_tree_ok _ _ _ _ Htree d n Hin) as [[Hm Hs] _].
      destruct (Hs kids Hkids) as (f & pi & recur & _ & Hb).
      split; [done|]. by exists f, pi, recur.
    - destruct (auto_tree_ok _ _ _ _ Htree d n Hin) as [[Hm Hs] _].
      destruct (Hs kids Hkids) as (f & pi & recur & _ & Hb).
      split; [done|]. by exists f, pi, recur. }
  destruct (split_children_spec _ _ _ _ _ _ _ _ _ _ Hsplit) as [Hall _].
  assert (sum_list ((λ c, previousCount (metrics c)) <$> kids)
          = length (filter (λ r, defined (get r f))
                      (filterData previousData (nfilter n)))) as Hsp.
  { eapply children_counts; [exact Hsplit|by apply list_subseteq_app_l|].
    by intros v c (_ & _ & _ & ? & _)%build_child_Some. }
  assert (sum_list ((λ c, currentCount (metrics c)) <$> kids)
          = length (filter (λ r, defined (get r f))
                      (filterData currentData (nfilter n)))) as Hsc.
  { eapply children_counts; [exact Hsplit|by apply list_subseteq_app_r|].
    by intros v c (_ & _ & _ & _ & ? & _)%build_child_Some. }
  exists f. cbv zeta. split_and!; try done.
  - eapply Forall_impl; [exact Hall|]. by intros c (? & ? & _).
  - intros r c Hr Hc Hmatch. rewrite Forall_forall in Hall.
    destruct (Hall c Hc) as (_ & Hdef & Hflt). rewrite Hflt in Hmatch.
    apply Hr. rewrite (Hmatch f (value c)); [done|]. by rewrite lookup_insert_eq.
  - eapply children_amounts; [exact Hsplit|by apply list_subseteq_app_l|].
    by intros v c (_ & _ & _ & _ & _ & ? & _)%build_child_Some.
  - eapply children_amounts; [exact Hsplit|by apply list_subseteq_app_r|].
    by intros v c (_ & _ & _ & _ & _ & _ & ? & _)%build_child_Some.
  - intros (r & Hr & Hnone). rewrite Hsp, Hpc. by eapply length_filter_lt.
  - intros (r & Hr & Hnone). rewrite Hsc, Hcc. by eapply length_filter_lt.
Qed.

(** ** Fuel *)

Lemma omap_ext_in {A B} (f g : A → option B) (l : list A) :
  (∀ x, x ∈ l → f x = g x) → omap f l = omap g l.
Proof.
  induction l as [|x l IH]; intros Hext; [done|].
  assert (omap f l = omap g l) as Htail.
  { apply IH. intros y Hy. apply Hext. by right. }
  change (omap f (x :: l)) with (from_option (λ y, y :: omap f l) (omap f l) (f x)).
  change (omap g (x :: l)) with (from_option (λ y, y :: omap g l) (omap g l) (g x)).
  rewrite (Hext x) by left. by rewrite Htail.
Qed.

Lemma build_children_ext `{JsRuntime}
    previousData currentData filteredPrevious filteredCurrent parentFilter
    currentFactor rootImpact parentTotalImpact recur1 recur2 :
  (∀ childFilter impact, recur1 childFilter impact = recur2 childFilter impact) →
  build_children previousData currentData filteredPrevious filteredCurrent
    parentFilter currentFactor rootImpact parentTotalImpact recur1
  = build_children previousData currentData filteredPrevious filteredCurrent
      parentFilter currentFactor rootImpact parentTotalImpact recur2.
Proof.
  intros Hrecur. unfold build_children. cbv zeta. do 2 f_equal.
  apply omap_ext_in. intros v _. unfold build_child. cbv zeta.
  case_decide; [|done]. by rewrite Hrecur.
Qed.

(** The user-priority recursion never runs out of fuel before [depth]
    reaches the end of the factor sequence: any fuel of at least
    [length factorOrder - depth] gives the same children. *)
Lemma priority_fuel_enough `{JsRuntime} previousData currentData factorOrder rootImpact
    fuel : ∀ depth parentFilter parentTotalImpact,
  (length factorOrder - depth ≤ fuel)%nat →
  buildUserPriorityTreeLevelV2 fuel previousData currentData factorOrder depth
    parentFilter rootImpact parentTotalImpact
  = buildUserPriorityTreeLevelV2 (length factorOrder - depth) previousData currentData
      factorOrder depth parentFilter rootImpact parentTotalImpact.
Proof.
  induction fuel as [|fuel IH]; intros depth pf pi Hfuel.
  { by replace (length factorOrder - depth)%nat with 0%nat by lia. }
  destruct (factorOrder !! depth) as [f|] eqn:Hf.
  - apply lookup_lt_Some in Hf as Hlt.
    replace (length factorOrder - depth)%nat
      with (S (length factorOrder - (depth + 1)))%nat by lia.
    simpl. rewrite Hf. apply build_children_ext. intros childFilter impact.
    apply IH. lia.
  - apply lookup_ge_None in Hf as Hge.
    replace (length factorOrder - depth)%nat with 0%nat by lia.
    simpl. by rewrite Hf.
Qed.

(** The auto-max-split recursion never runs out of fuel before [depth]
    reaches 4. *)
Lemma auto_fuel_enough `{JsRuntime} previousData currentData availableFactors rootImpact
    fuel : ∀ depth parentFilter parentTotalImpact,
  (4 - depth ≤ fuel)%nat →
  buildAutoMaxSplitTreeLevelV2 fuel previousData currentData depth parentFilter
    availableFactors rootImpact parentTotalImpact
  = buildAutoMaxSplitTreeLevelV2 (4 - depth) previousData currentData depth
      parentFilter availableFactors rootImpact parentTotalImpact.
Proof.
  induction fuel as [|fuel IH]; intros depth pf pi Hfuel.
  { by replace (4 - depth)%nat with 0%nat by lia. }
  destruct (decide (4 ≤ depth)%nat) as [Hdeep|Hshallow].
  - replace (4 - depth)%nat with 0%nat by lia. simpl. by rewrite decide_True.
  - replace (4 - depth)%nat with (S (4 - (depth + 1)))%nat by lia.
    simpl. destruct (decide (4 ≤ depth)%nat); [lia|].
    destruct (decide (_ ∨ _)); [done|].
    destruct (findBestSplitByTotalImpact _ _ _) as [bestSplit|]; [|done].
    apply build_children_ext. intros childFilter impact. apply IH. lia.
Qed.

(** ** The denominators of the factor selector *)

Lemma select_against_self `{JsRuntime} (previousData currentData : list row)
    (availableFactors : option (list string)) :
  select_against previousData currentData previousData currentData availableFactors
  = split_factor <$>
    findBestSplitByTotalImpact previousData currentData availableFactors.
Proof.
  unfold select_against, findBestSplitByTotalImpact. cbv zeta.
  by destruct (match availableFactors with Some _ => _ | None => _ end).
Qed.

(** What the selector is handed.  At every node of the auto-split tree that
    has children, the children's factor is the one the selector picks with
    the node's own filter-restricted subsets as the denominators of the
    distribution shares; these are the full portfolio at the root, whose
    filter is empty, and only there do the shares the selector ranks by agree
    with those of the impacts the tree stores. *)
Theorem selector_uses_node_subsets `{JsRuntime} (previousData currentData : list row)
    (availableFactors : option (list string)) (tree : list node) :
  buildAutoMaxSplitTreeV2 (Some previousData) (Some currentData) 0 availableFactors
    = Return (Some tree) →
  ∀ d n kids, in_forest d n tree → children n = Some kids →
    let filteredPrevious := filterData previousData (nfilter n) in
    let filteredCurrent := filterData currentData (nfilter n) in
    (∃ f, select_against filteredPrevious filteredCurrent
            filteredPrevious filteredCurrent availableFactors = Some f ∧
          Forall (λ c, factor c = f) kids) ∧
    (d = 0%nat → filteredPrevious = previousData ∧ filteredCurrent = currentData).
Proof.
  intros Htree d n kids Hin Hkids. cbv zeta. split.
  - destruct (auto_tree_ok _ _ _ _ Htree d n Hin) as [[_ Hs] _].
    destruct (Hs kids Hkids)
      as (f & pi & recur & (_ & _ & _ & best & Hbest & <-) & Hsplit).
    exists (split_factor best). split.
    + by rewrite select_against_self, Hbest.
    + apply split_children_spec in Hsplit as [Hall _].
      eapply Forall_impl; [exact Hall|]. by intros c (? & _).
  - intros ->. rewrite auto_tree_eq in Htree. apply Return_Some_inj in Htree.
    rewrite <-Htree in Hin. inversion Hin as [? ? Hn|]; subst.
    apply list_elem_of_singleton in Hn as ->. simpl.
    by rewrite !filterData_empty.
Qed.

(** The selector does not take its shares against the full portfolio at
    every node, as the impacts stored in the tree do: in the portfolio
    [skew_previous]/[skew_current] the segment [a = x] is split on [b], while
    against the full portfolio the selector picks [c] there. *)
Lemma selector_global_share_refuted :
  ¬ (∀ (H : JsRuntime) (previousData currentData : list row)
       (availableFactors : option (list string)) (tree : list node),
       buildAutoMaxSplitTreeV2 (Some previousData) (Some currentData) 0
         availableFactors = Return (Some tree) →
       ∀ d n kids, in_forest d n tree → children n = Some kids →
         ∃ f, select_against (filterData previousData (nfilter n))
                (filterData currentData (nfilter n))
                previousData currentData availableFactors = Some f ∧
              Forall (λ c, factor c = f) kids).
Proof.
  intros Hclaim.
  lazymatch eval vm_compute in
    (buildAutoMaxSplitTreeV2 (H := sample_runtime) (Some skew_previous) (Some skew_current) 0
       (Some ["a"; "b"; "c"])) with
  | Return (Some [?root]) =>
      lazymatch eval vm_compute in (children root) with
      | Some (?nx :: ?rest) =>
          lazymatch eval vm_compute in (children nx) with
          | Some ?kids =>
              assert (buildAutoMaxSplitTreeV2 (H := sample_runtime) (Some skew_previous)
                        (Some skew_current) 0 (Some ["a"; "b"; "c"])
                      = Return (Some [root])) as Htree
                by (vm_compute; reflexivity);
              assert (in_forest 1 nx [root]) as Hin
                by (apply (in_forest_below 0 nx root (nx :: rest));
                    [left|vm_compute; reflexivity|apply in_forest_here; left]);
              assert (children nx = Some kids) as Hkids
                by (vm_compute; reflexivity);
              destruct (Hclaim sample_runtime _ _ _ _ Htree 1%nat nx kids Hin Hkids)
                as (f & Hsel & Hall)
          end
      end
  end.
  vm_compute in Hsel. injection Hsel as <-.
  inversion Hall as [|c l Hc _]; subst. vm_compute in Hc. discriminate.
Qed.

(** C5.  The selector ranks the candidates by node-local shares, against the
    full-portfolio shares of every impact the tree stores.  In the portfolio
    [skew_previous]/[skew_current] with the candidates [a], [b], [c], the
    segment [a = x] at depth 1 is split on [b]: with the segment's own
    records as the denominators the variance of [b] is 1/10000 (impacts of
    +100 and -100 basis points) and that of [c] is 0.  The two children store
    -125 and -125 basis points, computed against the full portfolio, so the
    chosen factor shows no spread at all; against the full portfolio the
    variance of [b] is 0 and that of [c] is 1/160000 (impacts of -150 and
    -100 basis points), and the selector of the specification picks [c]. *)
Theorem selector_ranks_by_node_shares :
  let segment : gmap string jsval := {["a" := VStr "x"]} in
  let prevSubset := filterData skew_previous segment in
  let currSubset := filterData skew_current segment in
  let candidates := Some ["a"; "b"; "c"] in
  let stored (values : list row → list row) :=
    Impact.totalImpact
      (calculateImpactDecomposition (values prevSubset) (values currSubset)
         skew_previous skew_current) * Qc_of_Z 10000 in
  buildAutoMaxSplitTreeV2 (H := sample_runtime) (Some skew_previous)
    (Some skew_current) 0 candidates = Return (Some skew_tree) ∧
  nfilter <$> node_at [0; 0]%nat skew_tree = Some segment ∧
  (n ← node_at [0; 0]%nat skew_tree; kids ← children n;
   Some ((λ c, (factor c, value c, totalImpactBps (metrics c))) <$> kids)
   : option (list (string * jsval * Qc)))
  = Some [("b", VStr "b1", Qc_of_Z (-125)); ("b", VStr "b2", Qc_of_Z (-125))] ∧
  split_factor <$>
    findBestSplitByTotalImpact (H := sample_runtime) prevSubset currSubset candidates
  = Some "b" ∧
  calculateTotalImpactVariance (H := sample_runtime) prevSubset currSubset "b"
  = Q2Qc (1 # 10000) ∧
  calculateTotalImpactVariance (H := sample_runtime) prevSubset currSubset "c" = 0 ∧
  variance_against (H := sample_runtime) prevSubset currSubset
    skew_previous skew_current "b" = 0 ∧
  variance_against (H := sample_runtime) prevSubset currSubset
    skew_previous skew_current "c" = Q2Qc (1 # 160000) ∧
  stored (filter (λ r, get r "c" = VStr "c1")) = Qc_of_Z (-150) ∧
  stored (filter (λ r, get r "c" = VStr "c2")) = Qc_of_Z (-100) ∧
  select_against (H := sample_runtime) prevSubset currSubset
    skew_previous skew_current candidates = Some "c".
Proof. cbv zeta. split_and!; [vm_compute; reflexivity|by_evaluation..]. Qed.

(** ** Feature importance *)

Lemma importance_fold (var : string → Qc) (fs : list string) :
  fold_left (importance_step var) fs (∅, 0)
  = (list_to_map ((λ f, (f, Qc_max 0 (var f))) <$> reverse fs),
     Qc_sum ((λ f, Qc_max 0 (var f)) <$> fs)).
Proof.
  induction fs as [|f fs IH] using rev_ind; [done|].
  rewrite fold_left_app, IH.
  rewrite reverse_snoc, fmap_cons, fmap_app, Qc_sum_app.
  rewrite fmap_cons, fmap_nil, Qc_sum_cons, Qc_sum_nil.
  simpl. rewrite lookup_insert_eq. simpl. f_equal. ring.
Qed.

Lemma lookup_importance (var : string → Qc) (fs : list string) (f : string) :
  (list_to_map ((λ f, (f, Qc_max 0 (var f))) <$> reverse fs) : gmap string Qc) !! f
  = if decide (f ∈ fs) then Some (Qc_max 0 (var f)) else None.
Proof.
  induction fs as [|g fs IH] using rev_ind; [done|].
  rewrite reverse_snoc, fmap_cons. simpl.
  destruct (decide (g = f)) as [->|Hne].
  - rewrite lookup_insert_eq, decide_True; [done|]. apply elem_of_app. right. left.
  - rewrite lookup_insert_ne, IH by done.
    destruct (decide (f ∈ fs)) as [Hin|Hnin].
    + rewrite decide_True; [done|]. apply elem_of_app. by left.
    + rewrite decide_False; [done|].
      intros [?|?%list_elem_of_singleton]%elem_of_app; congruence.
Qed.

Lemma lookup_equal_weights (fs : list string) (w : Qc) (m : gmap string Qc) (f : string) :
  fold_left (λ importance factor, <[factor := w]> importance) fs m !! f
  = if decide (f ∈ fs) then Some w else m !! f.
Proof.
  revert m. induction fs as [|g fs IH] using rev_ind; intros m; [done|].
  rewrite fold_left_app. simpl.
  destruct (decide (g = f)) as [->|Hne].
  - rewrite lookup_insert_eq, decide_True; [done|]. apply elem_of_app. right. left.
  - rewrite lookup_insert_ne, IH by done.
    destruct (decide (f ∈ fs)) as [Hin|Hnin].
    + rewrite decide_True; [done|]. apply elem_of_app. by left.
    + rewrite decide_False; [done|].
      intros [?|?%list_elem_of_singleton]%elem_of_app; congruence.
Qed.

Lemma Qc_max_nonneg (x : Qc) : 0 ≤ x → Qc_max 0 x = x.
Proof.
  intros Hx. unfold Qc_max. case_decide as Hlt; [done|].
  apply Qcnot_lt_le in Hlt. by apply Qcle_antisym.
Qed.

(** The weight the function gives to each candidate, duplicates or not. *)
Lemma feature_importance_lookup `{JsRuntime} (previousData currentData : list row)
    (candidates : list string) (f : string) :
  let variance := calculateTotalImpactVariance previousData currentData in
  let total := Qc_sum (variance <$> candidates) in
  calculateTotalImpactFeatureImportance previousData currentData (Some candidates) !! f
  = if decide (f ∈ candidates)
    then Some (if decide (0 < total) then variance f / total
               else 1 / Qc_of_nat (length candidates))
    else None.
Proof.
  cbv zeta. unfold calculateTotalImpactFeatureImportance.
  change (fold_left _ candidates (∅, 0))
    with (fold_left (importance_step (calculateTotalImpactVariance previousData currentData))
            candidates (∅, 0)).
  rewrite importance_fold.
  assert ((λ f, Qc_max 0 (calculateTotalImpactVariance previousData currentData f))
            <$> candidates
          = calculateTotalImpactVariance previousData currentData <$> candidates) as ->.
  { apply list_fmap_ext. intros _ g _. apply Qc_max_nonneg, variance_nonneg. }
  destruct (decide (0 < _)) as [Hpos|Hzero].
  - rewrite lookup_fmap, lookup_importance.
    destruct (decide (f ∈ candidates)); [|done]. simpl.
    by rewrite Qc_max_nonneg by apply variance_nonneg.
  - rewrite lookup_equal_weights, lookup_importance.
    by destruct (decide (f ∈ candidates)).
Qed.

Lemma lookup_keyed (w : string → Qc) (fs : list string) (f : string) :
  (list_to_map ((λ g, (g, w g)) <$> fs) : gmap string Qc) !! f
  = if decide (f ∈ fs) then Some (w f) else None.
Proof.
  induction fs as [|g fs IH]; [done|].
  rewrite fmap_cons. simpl. destruct (decide (g = f)) as [->|Hne].
  - rewrite lookup_insert_eq, decide_True; [done|left].
  - rewrite lookup_insert_ne, IH by done.
    destruct (decide (f ∈ fs)) as [Hin|Hnin].
    + by rewrite decide_True by (by right).
    + rewrite decide_False; [done|]. intros [?|?]%elem_of_cons; congruence.
Qed.

(** A mapping that gives [w f] to each of the distinct keys [fs], and
    nothing else, has total weight the sum of [w] over [fs]. *)
Lemma importance_total_keyed (w : string → Qc) (fs : list string)
    (importance : gmap string Qc) :
  NoDup fs →
  (∀ f, importance !! f = if decide (f ∈ fs) then Some (w f) else None) →
  importance_total importance = Qc_sum (w <$> fs).
Proof.
  intros Hnd Hlookup.
  assert (importance = list_to_map ((λ g, (g, w g)) <$> fs)) as ->.
  { apply map_eq. intros f. by rewrite Hlookup, lookup_keyed. }
  unfold importance_total.
  assert (NoDup ((λ g, (g, w g)) <$> fs).*1) as Hkeys.
  { rewrite <-list_fmap_compose. rewrite (list_fmap_ext _ id fs) by done.
    by rewrite list_fmap_id. }
  rewrite (Qc_sum_perm _ (snd <$> ((λ g, (g, w g)) <$> fs))).
  - by rewrite <-list_fmap_compose.
  - by rewrite (map_to_list_to_map _ Hkeys).
Qed.

Lemma Qc_sum_div (g : string → Qc) (t : Qc) (l : list string) :
  Qc_sum ((λ f, g f / t) <$> l) = Qc_sum (g <$> l) / t.
Proof.
  induction l as [|f l IH].
  - rewrite !fmap_nil, Qc_sum_nil. unfold Qcdiv. ring.
  - rewrite !fmap_cons, !Qc_sum_cons, IH. unfold Qcdiv. ring.
Qed.

Lemma Qc_sum_const (c : Qc) (l : list string) :
  Qc_sum ((λ _, c) <$> l) = Qc_of_nat (length l) * c.
Proof.
  induction l as [|f l IH].
  - rewrite fmap_nil, Qc_sum_nil.
    change (Qc_of_nat (length [])) with (Qc_of_Z 0). rewrite Z2Qc_inj_0. ring.
  - rewrite fmap_cons, Qc_sum_cons, IH.
    change (length (f :: l)) with (S (length l)). unfold Qc_of_nat.
    rewrite Nat2Z.inj_succ, <-Z.add_1_r, Z2Qc_inj_add, Z2Qc_inj_1. ring.
Qed.

(** For a candidate list without repetitions the weights are the
    variances over their sum when that sum is positive, each [1/n] otherwise,
    and they add up to 1. *)
Lemma feature_importance_normalised `{JsRuntime} (previousData currentData : list row)
    (candidates : list string) :
  let variance := calculateTotalImpactVariance previousData currentData in
  let importance :=
    calculateTotalImpactFeatureImportance previousData currentData (Some candidates) in
  NoDup candidates → candidates ≠ [] →
  importance_total importance = 1 ∧
  (∀ f w, importance !! f = Some w → 0 ≤ w) ∧
  (Exists (λ f, variance f ≠ 0) candidates →
     ∀ f, f ∈ candidates →
       importance !! f = Some (variance f / Qc_sum (variance <$> candidates))) ∧
  (Forall (λ f, variance f = 0) candidates →
     ∀ f, f ∈ candidates →
       importance !! f = Some (1 / Qc_of_nat (length candidates))).
Proof.
  cbv zeta. intros Hnd Hne.
  set (variance := calculateTotalImpactVariance previousData currentData).
  set (total := Qc_sum (variance <$> candidates)).
  assert (0 ≤ total) as Htotal.
  { apply Qc_sum_nonneg, Forall_fmap, Forall_forall. intros f _. apply variance_nonneg. }
  assert (0 < Qc_of_nat (length candidates)) as Hlen.
  { apply Qc_of_nat_pos. destruct candidates; [done|simpl; lia]. }
  split_and!.
  - erewrite importance_total_keyed;
      [|done|intros f; apply feature_importance_lookup].
    fold variance total. destruct (decide (0 < total)) as [Hpos|Hzero].
    + rewrite (Qc_sum_div variance total). fold total.
      unfold Qcdiv. apply Qcmult_inv_r. by apply not_symmetry, Qclt_not_eq.
    + rewrite Qc_sum_const. unfold Qcdiv. rewrite Qcmult_1_l.
      apply Qcmult_inv_r. by apply not_symmetry, Qclt_not_eq.
  - intros f w. rewrite feature_importance_lookup. fold variance total.
    destruct (decide (f ∈ candidates)); [|done]. intros [= <-].
    destruct (decide (0 < total)).
    + apply Qc_div_nonneg; [apply variance_nonneg|done].
    + by apply Qc_div_nonneg.
  - intros Hex f Hf. rewrite feature_importance_lookup. fold variance total.
    rewrite decide_True by done. rewrite decide_True; [done|].
    apply Qcle_lt_or_eq in Htotal as [?|Hz]; [done|]. exfalso.
    apply Exists_exists in Hex as (g & Hg & Hvar). apply Hvar.
    apply Qcle_antisym; [|apply variance_nonneg].
    rewrite Hz. unfold total.
    apply list_elem_of_split in Hg as (l1 & l2 & ->).
    rewrite fmap_app, fmap_cons, Qc_sum_app, Qc_sum_cons.
    assert (variance g = 0 + (variance g + 0)) as Heq by ring.
    rewrite Heq at 1.
    apply Qcplus_le_compat; [|apply Qcplus_le_compat; [apply Qcle_refl|]].
    all: apply Qc_sum_nonneg, Forall_fmap, Forall_forall; intros ? _;
      apply variance_nonneg.
  - intros Hall f Hf. rewrite feature_importance_lookup. fold variance total.
    rewrite decide_True by done. rewrite decide_False; [done|].
    assert (total = 0) as ->; [|intros Hlt; by apply Qclt_not_eq in Hlt].
    unfold total.
    assert (variance <$> candidates = (λ _, 0) <$> candidates) as ->.
    { apply list_fmap_ext. intros _ g Hg%list_elem_of_lookup_2.
      rewrite Forall_forall in Hall. by apply Hall. }
    rewrite Qc_sum_const. ring.
Qed.

(** ** Failure semantics of the entry points *)

(** C8, as amended.  On collections whose rows are numeric: with a missing
    collection both entry points throw an [Error] whose message is their own
    prefix followed by the message of the [TypeError] raised on the missing
    array; with both collections present they return a result, and a tree
    that has no children is returned as such: the root alone under an empty
    factor order, under fewer than ten records in a period for the automatic
    mode, and for two empty collections in both modes. *)
Theorem entry_points_failure `{JsRuntime} (data : AnalysisData)
    (factorOrder : list string) (availableFactors : option (list string)) :
  numeric_collection (previousMonth data) →
  numeric_collection (currentMonth data) →
  (previousMonth data = None ∨ currentMonth data = None →
   performUserPriorityAnalysisV2 data factorOrder
     = Throw (Error ("V2 User-Priority analysis failed: "
                     ++ error_message (cannot_read "reduce"))) ∧
   performAutoMaxSplitAnalysisV2 data availableFactors
     = Throw (Error ("V2 Auto-Max Split analysis failed: "
                     ++ error_message (cannot_read "reduce")))) ∧
  (∀ previousData currentData,
     previousMonth data = Some previousData →
     currentMonth data = Some currentData →
     ∃ priorityResult autoResult priorityRoot autoRoot,
       performUserPriorityAnalysisV2 data factorOrder = Return priorityResult ∧
       performAutoMaxSplitAnalysisV2 data availableFactors = Return autoResult ∧
       tree priorityResult = Some [priorityRoot] ∧
       tree autoResult = Some [autoRoot] ∧
       (factorOrder = [] → children priorityRoot = None) ∧
       ((length previousData < 10 ∨ length currentData < 10)%nat →
        children autoRoot = None) ∧
       (previousData = [] → currentData = [] →
        children priorityRoot = None ∧ children autoRoot = None)).
Proof.
  intros _ _.
  destruct data as [[previousRows|] [currentRows|]]; simpl; split.
  - by intros [?|?].
  - intros previousData currentData [= <-] [= <-].
    assert (length previousRows < 10 ∨ length currentRows < 10 →
            buildAutoMaxSplitTreeLevelV2 4 previousRows currentRows 0 ∅
              availableFactors
              (calculateWeightedROI currentRows - calculateWeightedROI previousRows)
              None = None)%nat as Hshort.
    { intros Hlen. simpl. rewrite !filterData_empty. by rewrite decide_True. }
    eexists _, _, _, _. split_and!; [reflexivity..| | |].
    + intros ->. reflexivity.
    + intros Hlen. simpl. exact (Hshort Hlen).
    + intros -> ->. split.
      * simpl. destruct factorOrder as [|f fs]; [done|]. simpl.
        destruct (fs !! 0%nat); reflexivity.
      * simpl. apply Hshort. left. simpl. lia.
  - intros _. by split.
  - by intros ? ? _ [=].
  - intros _. by split.
  - by intros ? ? [=].
  - intros _. by split.
  - by intros ? ? [=].
Qed.

(** Two empty collections are not rejected: both entry points return a
    result for them. *)
Lemma empty_collections_accepted :
  ¬ (∀ (H : JsRuntime) (data : AnalysisData) (factorOrder : list string)
       (availableFactors : option (list string)),
       previousMonth data = None ∨ previousMonth data = Some [] ∨
       currentMonth data = None ∨ currentMonth data = Some [] →
       (∃ e, performUserPriorityAnalysisV2 data factorOrder = Throw e) ∧
       (∃ e, performAutoMaxSplitAnalysisV2 data availableFactors = Throw e)).
Proof.
  intros Hclaim.
  destruct (Hclaim sample_runtime
              {| previousMonth := Some []; currentMonth := Some [] |}
              ["tier"] (Some ["tier"])) as [[e He] _]; [by right; left|].
  vm_compute in He. discriminate.
Qed.

(** ** Feature importance over a repeated candidate *)

(** C9.  The candidate list [["tier"; "tier"]] on the distribution-only shift:
    the variance of [tier] is not zero, the loop adds it to the total once
    per occurrence while the mapping holds it once, and the one weight
    returned is 1/2 instead of 1. *)
Theorem duplicate_candidates_not_normalised :
  let importance :=
    calculateTotalImpactFeatureImportance (H := sample_runtime)
      shift_previous shift_current (Some ["tier"; "tier"]) in
  calculateTotalImpactVariance (H := sample_runtime)
    shift_previous shift_current "tier" ≠ 0 ∧
  map_to_list (this <$> importance) = [("tier", (1 # 2)%Q)] ∧
  this (importance_total importance) = (1 # 2)%Q ∧
  importance_total importance ≠ 1.
Proof.
  cbv zeta. split_and!.
  - intros Hzero. apply (f_equal this) in Hzero. vm_compute in Hzero. discriminate.
  - vm_compute. reflexivity.
  - vm_compute. reflexivity.
  - intros Hone. apply (f_equal this) in Hone. vm_compute in Hone. discriminate.
Qed.

(** * The properties on the sample portfolios *)

(** The decomposition of tier A within the distribution-only shift. *)
Lemma impact_decomposition_witness :
  let tierA := {["tier" := VStr "A"]} in
  let d :=
    calculateImpactDecomposition
      (filterData shift_previous tierA) (filterData shift_current tierA)
      shift_previous shift_current in
  0 ≤ getTotalAmount shift_previous ∧
  Impact.totalImpact d = Impact.yieldImpact d + Impact.distributionImpact d ∧
  Impact.prevDistWeight d =
    if decide (getTotalAmount shift_previous = 0) then 0
    else getTotalAmount (filterData shift_previous tierA)
         / getTotalAmount shift_previous.
Proof.
  cbv zeta.
  assert (0 ≤ getTotalAmount shift_previous) as Hnn by by_evaluation.
  destruct (impact_decomposition_correct
              (filterData shift_previous {["tier" := VStr "A"]})
              (filterData shift_current {["tier" := VStr "A"]})
              shift_previous shift_current)
    as (_ & _ & Htotal & _ & _ & _ & _ & Hprev & _).
  split_and!; [exact Hnn|exact Htotal|exact (Hprev Hnn)].
Defined.

(** The weighted rate of two loans of weight 1, the second without a rate:
    the numerator has the one term of the first loan, the denominator the
    weights of both. *)
Lemma weighted_aggregator_witness :
  Forall numeric_row unrated_sample ∧
  Forall (λ r, 0 ≤ amount_of r) unrated_sample ∧
  getTotalAmount unrated_sample = Qc_sum (amount_of <$> unrated_sample) ∧
  calculateWeightedROI unrated_sample =
    if decide (getTotalAmount unrated_sample = 0) then 0
    else
      Qc_sum ((λ r, amount_of r * roi_of r) <$>
              filter (λ r, is_number (get r "total_loan_amount") ∧
                           is_number (get r "roi")) unrated_sample)
      / Qc_sum (amount_of <$>
                  filter (λ r, is_number (get r "total_loan_amount"))
                    unrated_sample).
Proof.
  assert (Forall numeric_row unrated_sample) as Hnum by by_evaluation.
  assert (Forall (λ r, 0 ≤ amount_of r) unrated_sample) as Hnn
    by (repeat constructor; by_evaluation).
  destruct (weighted_aggregator_correct unrated_sample Hnum)
    as (_ & _ & _ & _ & Htotal & _ & _ & _ & _ & _ & Haverage).
  split_and!; [exact Hnum|exact Hnn|exact Htotal|exact (Haverage Hnn)].
Defined.

(** The root of the skewed portfolio is split on [a], the first candidate,
    whose variance no other candidate exceeds. *)
Lemma best_split_witness :
  ∃ best,
    findBestSplitByTotalImpact (H := sample_runtime) skew_previous skew_current
      (Some ["a"; "b"; "c"]) = Some best ∧
    split_factor best = "a" ∧
    split_variance best
    = calculateTotalImpactVariance (H := sample_runtime) skew_previous skew_current
        (split_factor best) ∧
    0 < calculateTotalImpactVariance (H := sample_runtime) skew_previous skew_current
          (split_factor best).
Proof.
  lazymatch eval vm_compute in
    (findBestSplitByTotalImpact (H := sample_runtime) skew_previous skew_current
       (Some ["a"; "b"; "c"])) with
  | Some ?best =>
      exists best;
      assert (findBestSplitByTotalImpact (H := sample_runtime) skew_previous
                skew_current (Some ["a"; "b"; "c"]) = Some best) as Hbest
        by (vm_compute; reflexivity);
      destruct (best_split_correct (H := sample_runtime) skew_previous skew_current
                  ["a"; "b"; "c"]) as [Hsome _];
      destruct (Hsome best Hbest) as (Hvariance & Hpositive & _);
      split_and!; [exact Hbest|reflexivity|exact Hvariance|exact Hpositive]
  end.
Defined.

(** The segment [a = x] of the skewed portfolio, one level below the root. *)
Ltac skew_segment k :=
  lazymatch eval vm_compute in (node_at [0; 0]%nat skew_tree) with
  | Some ?n =>
      lazymatch eval vm_compute in (children n) with
      | Some ?kids => k n kids
      end
  end.

Ltac in_skew_tree :=
  vm_compute;
  eapply in_forest_below; [left|reflexivity|apply in_forest_here; left].

Lemma selector_witness :
  buildAutoMaxSplitTreeV2 (H := sample_runtime) (Some skew_previous)
    (Some skew_current) 0 (Some ["a"; "b"; "c"]) = Return (Some skew_tree) ∧
  ∃ n kids,
    node_at [0; 0]%nat skew_tree = Some n ∧
    in_forest 1 n skew_tree ∧ children n = Some kids ∧
    ∃ f, select_against (H := sample_runtime)
           (filterData skew_previous (nfilter n)) (filterData skew_current (nfilter n))
           (filterData skew_previous (nfilter n)) (filterData skew_current (nfilter n))
           (Some ["a"; "b"; "c"]) = Some f ∧
         Forall (λ c, factor c = f) kids.
Proof.
  assert (buildAutoMaxSplitTreeV2 (H := sample_runtime) (Some skew_previous)
            (Some skew_current) 0 (Some ["a"; "b"; "c"]) = Return (Some skew_tree))
    as Htree by (vm_compute; reflexivity).
  split; [exact Htree|].
  skew_segment ltac:(fun n kids =>
    assert (in_forest 1 n skew_tree) as Hin by in_skew_tree;
    assert (children n = Some kids) as Hkids by (vm_compute; reflexivity);
    exists n, kids; split_and!;
      [vm_compute; reflexivity|exact Hin|exact Hkids|
       exact (proj1 (selector_uses_node_subsets (H := sample_runtime)
                       skew_previous skew_current (Some ["a"; "b"; "c"]) skew_tree
                       Htree 1%nat n kids Hin Hkids))]).
Defined.

Lemma auto_tree_bounds_witness :
  buildAutoMaxSplitTreeV2 (H := sample_runtime) (Some skew_previous)
    (Some skew_current) 0 (Some ["a"; "b"; "c"]) = Return (Some skew_tree) ∧
  ∃ n,
    node_at [0; 0]%nat skew_tree = Some n ∧ in_forest 1 n skew_tree ∧
    (1 ≤ 4)%nat ∧
    (is_Some (children n) →
       (10 ≤ length (filterData skew_previous (nfilter n)))%nat ∧
       (10 ≤ length (filterData skew_current (nfilter n)))%nat).
Proof.
  assert (buildAutoMaxSplitTreeV2 (H := sample_runtime) (Some skew_previous)
            (Some skew_current) 0 (Some ["a"; "b"; "c"]) = Return (Some skew_tree))
    as Htree by (vm_compute; reflexivity).
  split; [exact Htree|].
  skew_segment ltac:(fun n kids =>
    assert (in_forest 1 n skew_tree) as Hin by in_skew_tree;
    exists n; split_and!;
      [vm_compute; reflexivity|exact Hin|
       exact (proj1 (auto_tree_bounds (H := sample_runtime) skew_previous
                       skew_current (Some ["a"; "b"; "c"]) skew_tree Htree
                       1%nat n Hin))|
       exact (proj2 (auto_tree_bounds (H := sample_runtime) skew_previous
                       skew_current (Some ["a"; "b"; "c"]) skew_tree Htree
                       1%nat n Hin))]).
Defined.

(** The root of a user-priority tree and its children. *)
Ltac root_of tree k :=
  lazymatch eval vm_compute in (node_at [0]%nat tree) with
  | Some ?n =>
      lazymatch eval vm_compute in (children n) with
      | Some ?kids => k n kids
      end
  end.

Ltac at_root := vm_compute; apply in_forest_here; left.

Lemma children_complete_witness :
  buildUserPriorityTreeV2 (H := sample_runtime) (Some shift_previous)
    (Some shift_current) ["tier"] 0 = Return (Some shift_tree) ∧
  ∃ root kids,
    node_at [0]%nat shift_tree = Some root ∧
    in_forest 0 root shift_tree ∧ children root = Some kids ∧
    ∃ splitFactor,
      let restricted :=
        (filterData shift_previous (nfilter root)
         ++ filterData shift_current (nfilter root))%list in
      Forall (λ c, factor c = splitFactor) kids ∧
      (∀ v, defined v → (∃ r, r ∈ restricted ∧ get r splitFactor = v) →
            child_count kids v = 1%nat) ∧
      (∀ v, ¬ (∃ r, r ∈ restricted ∧ get r splitFactor = v) →
            child_count kids v = 0%nat).
Proof.
  assert (buildUserPriorityTreeV2 (H := sample_runtime) (Some shift_previous)
            (Some shift_current) ["tier"] 0 = Return (Some shift_tree))
    as Htree by (vm_compute; reflexivity).
  split; [exact Htree|].
  root_of shift_tree ltac:(fun root kids =>
    assert (in_forest 0 root shift_tree) as Hin by at_root;
    assert (children root = Some kids) as Hkids by (vm_compute; reflexivity);
    exists root, kids; split_and!;
      [vm_compute; reflexivity|exact Hin|exact Hkids|
       exact (children_complete (H := sample_runtime) shift_previous shift_current
                ["tier"] None shift_tree (or_introl Htree) 0%nat root kids
                Hin Hkids)]).
Defined.

(** The loan without a tier counts in the root and in none of its children. *)
Lemma undefined_values_witness :
  buildUserPriorityTreeV2 (H := sample_runtime) (Some untiered_previous)
    (Some untiered_current) ["tier"] 0 = Return (Some untiered_tree) ∧
  ∃ root kids,
    node_at [0]%nat untiered_tree = Some root ∧
    in_forest 0 root untiered_tree ∧ children root = Some kids ∧
    previousCount (metrics root) = 2%nat ∧
    sum_list ((λ c, previousCount (metrics c)) <$> kids) = 1%nat ∧
    (sum_list ((λ c, previousCount (metrics c)) <$> kids)
     < previousCount (metrics root))%nat ∧
    Qc_sum ((λ c, previousAmount (metrics c)) <$> kids)
    < previousAmount (metrics root).
Proof.
  assert (buildUserPriorityTreeV2 (H := sample_runtime) (Some untiered_previous)
            (Some untiered_current) ["tier"] 0 = Return (Some untiered_tree))
    as Htree by (vm_compute; reflexivity).
  split; [exact Htree|].
  root_of untiered_tree ltac:(fun root kids =>
    assert (in_forest 0 root untiered_tree) as Hin by at_root;
    assert (children root = Some kids) as Hkids by (vm_compute; reflexivity);
    exists root, kids;
    destruct (undefined_values_left_out (H := sample_runtime) untiered_previous
                untiered_current ["tier"] None untiered_tree (or_introl Htree)
                0%nat root kids Hin Hkids)
      as (f & Hall & _ & _ & _ & _ & _ & _ & _ & _ & _ & Hless & _);
    assert (f = "tier") as ->
      by (destruct (Forall_inv Hall) as [Hf _]; symmetry; exact Hf);
    split_and!;
      [vm_compute; reflexivity|exact Hin|exact Hkids|reflexivity|reflexivity|
       apply Hless; exists (loan (Qc_of_Z 50) (Q2Qc (1 # 5)) VNull);
       split; [vm_compute; right; left|vm_compute; intros [Hnull _]; by apply Hnull]|
       by_evaluation]).
Defined.

(** A request whose previous-month collection is missing, and the same
    request with both collections of the distribution-only shift. *)
Lemma entry_points_witness :
  numeric_collection None ∧ numeric_collection (Some shift_previous) ∧
  numeric_collection (Some shift_current) ∧
  performUserPriorityAnalysisV2 (H := sample_runtime)
    {| previousMonth := None; currentMonth := Some shift_current |} ["tier"]
  = Throw (Error "V2 User-Priority analysis failed: Cannot read properties of undefined (reading 'reduce')") ∧
  ∃ autoResult autoRoot,
    performAutoMaxSplitAnalysisV2 (H := sample_runtime)
      {| previousMonth := Some shift_previous; currentMonth := Some shift_current |}
      None = Return autoResult ∧
    tree autoResult = Some [autoRoot] ∧ children autoRoot = None.
Proof.
  assert (numeric_collection (Some shift_previous)) as Hprevious by by_evaluation.
  assert (numeric_collection (Some shift_current)) as Hcurrent by by_evaluation.
  split_and!; [exact I|exact Hprevious|exact Hcurrent| |].
  - exact (proj1 (proj1 (entry_points_failure (H := sample_runtime)
                           {| previousMonth := None;
                              currentMonth := Some shift_current |}
                           ["tier"] None I Hcurrent) (or_introl eq_refl))).
  - destruct (proj2 (entry_points_failure (H := sample_runtime)
                       {| previousMonth := Some shift_previous;
                          currentMonth := Some shift_current |}
                       ["tier"] None Hprevious Hcurrent)
                _ _ eq_refl eq_refl)
      as (priorityResult & autoResult & priorityRoot & autoRoot
          & _ & Hauto & _ & Htree & _ & Hshort & _).
    exists autoResult, autoRoot. split_and!; [exact Hauto|exact Htree|].
    apply Hshort. left. vm_compute. lia.
Defined.
